(** * redurx: the state-tree engine of [src/lib/state/tree.js]

    A shallow embedding of the reactive state tree.  The JavaScript code
    wires Rx subjects together; here every subject is a field of a cell in
    an explicit store, and every [onNext] is a store transformer.  Delivery
    is synchronous and depth first, as the single-threaded push model of
    the library has it:

    - [Rx.Subject] / [onNext]: a function from store to store;
    - [Rx.BehaviorSubject v]: a field that always holds a value;
    - [Rx.ReplaySubject(1)]: the list of the values passed to [onNext],
      whose last element is replayed to a new subscriber;
    - [withLatestFrom other]: the source event is dropped as long as
      [other] has not emitted;
    - [shareReplay(1)]: a flag saying whether the stream has emitted, next
      to its last value;
    - [combineLatest]: emits once every input has a value, nothing for an
      empty list of inputs;
    - [flatMapLatest]: the inner stream is rebuilt from the latest outer
      value;
    - [pausable pauser]: connected while the pauser is [true]; a
      disconnected pipeline drops what happens upstream and, on
      reconnection, subscribes to its source afresh;
    - [distinctUntilChanged]: drops a value equal to the one before.

    An exception leaves the store as it is at the [throw]; what the
    subjects do after a failure is outside the model.  A store holds one
    tree with its pauser; the [hookMap], which the engine only hands on
    to [createNode], is left out.  Property names are taken not to be
    names that every object inherits ([toString], [constructor], ...) nor
    integer-like, so that [key in o] is about own properties and
    [Object.keys] follows insertion order. *)

From Stdlib Require Import ZArith String.
From stdpp Require Import base list strings pretty relations.

Local Open Scope list_scope.
#[local] Set Warnings "-register-all".

(** ** JavaScript values *)

(** The values a state can hold.  A plain object is the list of its own
    properties in insertion order; property names are unique in a
    JavaScript object, see [wf_value]. *)
Inductive value : Type :=
  | VUndefined
  | VNull
  | VBool (b : bool)
  | VNum (n : Z)
  | VStr (s : string)
  | VObj (fields : list (string * value)).

(** Deep equality, the default comparer of [distinctUntilChanged]. *)
Fixpoint value_eqb (a b : value) {struct a} : bool :=
  match a, b with
  | VUndefined, VUndefined => true
  | VNull, VNull => true
  | VBool x, VBool y => Bool.eqb x y
  | VNum x, VNum y => Z.eqb x y
  | VStr x, VStr y => String.eqb x y
  | VObj fs, VObj gs =>
      (fix fields_eqb (fs gs : list (string * value)) {struct fs} : bool :=
         match fs, gs with
         | [], [] => true
         | (k, v) :: fs', (k', v') :: gs' =>
             String.eqb k k' && value_eqb v v' && fields_eqb fs' gs'
         | _, _ => false
         end) fs gs
  | _, _ => false
  end.

(** Modelled from the spec: [isPlainObject] of [../utils], which is not
    part of the source at hand.  A keyed collection, as opposed to an
    opaque scalar (section 4.1). *)
Definition isPlainObject (v : value) : bool :=
  match v with VObj _ => true | _ => false end.


(** ** Errors *)

(** What [throwShapeError] and [throwFinalizedError key] of [../errors]
    raise, the [Error] of [createLeaf], and the [TypeError] the runtime
    raises for [Object.keys(null)] or [key in "text"]. *)
Inductive error : Type :=
  | ShapeError
  | FinalizedError (key : string)
  | LeafOverChildrenError
  | TypeError.

Inductive outcome (A : Type) : Type :=
  | Ok (a : A)
  | Throw (e : error).
Arguments Ok {A} a.
Arguments Throw {A} e.

(** ** The store *)

Inductive kind : Type := KLeaf | KTree.

(** One cell per node.  For a tree node the cell holds the plumbing that
    [createInitialTree] allocates; for a leaf the subject of [createLeaf]. *)
Record cell : Type := Cell {
  c_kind : kind;
  (** the [provisional] attribute of the node *)
  provisional : bool;
  (** [getChildrenSubject.getValue()]: key to child node, insertion order *)
  children : list (string * nat);
  (** [childrenObservable] has emitted (and then replays [children]) *)
  emitted : bool;
  (** the pausable pipeline feeding [valueSubject] is connected *)
  connected : bool;
  (** leaf: the values of the [BehaviorSubject], oldest first;
      tree: the values passed to [valueSubject.onNext] *)
  subject : list value;
  (** what each subscriber of the node's observable has received *)
  observers : list (list value);
  (** the branches above, nearest first: who combines this node's values *)
  upstream : list nat
}.

Record store : Type := Store {
  cells : list cell;
  (** the tree-wide [pauser], a [BehaviorSubject(true)] *)
  pauser : bool;
  (** the pausable pipelines, in the order they subscribed to [pauser] *)
  pausables : list nat
}.

Definition empty_store : store := Store [] true [].

(** The state-and-exception monad of the engine. *)
Definition M (A : Type) : Type := store -> store * outcome A.

Definition ret {A} (a : A) : M A := fun st => (st, Ok a).
Definition throw {A} (e : error) : M A := fun st => (st, Throw e).
Definition bind {A B} (m : M A) (f : A -> M B) : M B :=
  fun st =>
    match m st with
    | (st', Ok a) => f a st'
    | (st', Throw e) => (st', Throw e)
    end.
Definition modify (f : store -> store) : M unit := fun st => (f st, Ok tt).

Notation "x <- m ; k" := (bind m (fun x => k))
  (at level 20, m at level 100, k at level 200, only parsing).
Notation "m >> k" := (bind m (fun _ => k))
  (at level 100, k at level 200, right associativity, only parsing).

(** [list.forEach] with an effectful body. *)
Fixpoint forEach {A} (f : A -> M unit) (l : list A) : M unit :=
  match l with
  | [] => ret tt
  | x :: l' => f x >> forEach f l'
  end.

(** ** Cells and objects *)

Definition getCell (st : store) (id : nat) : option cell := cells st !! id.

Definition updCell (f : cell -> cell) (id : nat) (st : store) : store :=
  Store (alter f id (cells st)) (pauser st) (pausables st).

(** A new subject (or group of subjects) gets the next free identity. *)
Definition alloc (c : cell) : M nat :=
  fun st =>
    (Store (cells st ++ [c]) (pauser st) (pausables st), Ok (length (cells st))).

Definition set_provisional (b : bool) (c : cell) : cell :=
  Cell (c_kind c) b (children c) (emitted c) (connected c) (subject c)
       (observers c) (upstream c).
Definition set_children (reg : list (string * nat)) (c : cell) : cell :=
  Cell (c_kind c) (provisional c) reg true (connected c) (subject c)
       (observers c) (upstream c).
Definition set_connected (b : bool) (c : cell) : cell :=
  Cell (c_kind c) (provisional c) (children c) (emitted c) b (subject c)
       (observers c) (upstream c).
Definition set_streams (s : list value) (os : list (list value)) (c : cell)
  : cell :=
  Cell (c_kind c) (provisional c) (children c) (emitted c) (connected c) s os
       (upstream c).

(** Truthiness of a reference that may be [undefined]. *)
Definition isSome {A} (o : option A) : bool :=
  match o with Some _ => true | None => false end.

(** [o[key]] on an object given as a property list. *)
Fixpoint lookupKey {A} (key : string) (o : list (string * A)) : option A :=
  match o with
  | [] => None
  | (k, x) :: o' => if String.eqb k key then Some x else lookupKey key o'
  end.

(** [Object.assign({}, acc, {[key]: x})]: an existing property keeps its
    place, a new one goes last. *)
Fixpoint assign {A} (key : string) (x : A) (acc : list (string * A))
  : list (string * A) :=
  match acc with
  | [] => [(key, x)]
  | (k, y) :: acc' =>
      if String.eqb k key then (k, x) :: acc' else (k, y) :: assign key x acc'
  end.

(** [Object.keys(v)].  A number or a boolean has no own property, a string
    has its indices, [null] and [undefined] raise. *)
Definition objectKeys (v : value) : outcome (list string) :=
  match v with
  | VObj fs => Ok (map fst fs)
  | VStr s => Ok (map pretty (seq 0 (String.length s)))
  | VNull | VUndefined => Throw TypeError
  | _ => Ok []
  end.

(** ** Value streams *)

Definition isProvisional (st : store) (id : nat) : bool :=
  match getCell st id with Some c => provisional c | None => false end.

(** The value a node's stream replays to a new subscriber: the current
    value of a leaf, the last combined value of a branch. *)
Definition latestValue (st : store) (id : nat) : option value :=
  match getCell st id with Some c => last (subject c) | None => None end.

(** Stage one of [createTreeObservable]: [combineLatest] over the node
    subjects of the registry, keeping the nodes that are not provisional. *)
Definition latestNodes (st : store) (reg : list (string * nat))
  : list (string * nat) :=
  filter (fun kc => negb (isProvisional st (snd kc))) reg.

(** Stage two: [combineLatest] over the value streams of those nodes.  It
    yields a mapping once every input has a value. *)
Fixpoint latestValues (st : store) (nodes : list (string * nat))
  : option (list (string * value)) :=
  match nodes with
  | [] => Some []
  | (k, c) :: nodes' =>
      match latestValue st c, latestValues st nodes' with
      | Some v, Some acc => Some ((k, v) :: acc)
      | _, _ => None
      end
  end.

(** What the pipeline of [createTreeObservable] emits when it is (re)built
    from the store: nothing before the registry has emitted, nothing for
    an empty [combineLatest], else the combined value.  Only a tree node
    has such a pipeline. *)
Definition createTreeObservable (st : store) (id : nat) : option value :=
  match getCell st id with
  | Some c =>
      match c_kind c with
      | KTree =>
          if emitted c then
            match latestNodes st (children c) with
            | [] => None
            | nodes => VObj <$> latestValues st nodes
            end
          else None
      | KLeaf => None
      end
  | None => None
  end.

(** [valueSubject.onNext(v)]: the value is kept for replay and handed to
    every subscriber. *)
Definition valueSubject_onNext (id : nat) (v : value) (st : store) : store :=
  updCell (fun c => set_streams (subject c ++ [v])
                                (map (fun o => o ++ [v]) (observers c)) c)
          id st.

(** One subscriber behind [distinctUntilChanged]. *)
Definition distinctUntilChanged (v : value) (o : list value) : list value :=
  match last o with
  | Some w => if value_eqb w v then o else o ++ [v]
  | None => o ++ [v]
  end.

(** The parent's pipeline is subscribed to the stream of [child]: it is
    connected, its registry has emitted, and [child] is one of its
    registered nodes that are not provisional. *)
Definition listening (st : store) (p child : nat) : bool :=
  match getCell st p with
  | Some c =>
      connected c && emitted c &&
      existsb (fun kc => Nat.eqb (snd kc) child) (latestNodes st (children c))
  | None => false
  end.

(** A value published by [child] makes every listening branch above
    recombine and publish in turn. *)
Fixpoint propagate (chain : list nat) (child : nat) (st : store) : store :=
  match chain with
  | [] => st
  | p :: chain' =>
      if listening st p child then
        match createTreeObservable st p with
        | Some v => propagate chain' p (valueSubject_onNext p v st)
        | None => st
        end
      else st
  end.

Definition upstreamOf (st : store) (id : nat) : list nat :=
  match getCell st id with Some c => upstream c | None => [] end.

(** The pipeline of [id] is rebuilt: its emission, if any, goes to
    [valueSubject] and up the tree. *)
Definition publish (id : nat) (st : store) : store :=
  match createTreeObservable st id with
  | Some v => propagate (upstreamOf st id) id (valueSubject_onNext id v st)
  | None => st
  end.

(** ** The pause gate *)

(** [pauser.onNext(b)].  Every pausable pipeline sits behind its own
    [distinctUntilChanged], so a repeated value does nothing.  On [false]
    the pipelines disconnect; on [true] they reconnect in the order they
    subscribed, each one rebuilt from the replayed registry. *)
Definition pauser_onNext (b : bool) : M unit :=
  modify (fun st =>
    if Bool.eqb b (pauser st) then st
    else if b then
      fold_left (fun s id => publish id (updCell (set_connected true) id s))
                (pausables st) (Store (cells st) true (pausables st))
    else
      fold_left (fun s id => updCell (set_connected false) id s)
                (pausables st) (Store (cells st) false (pausables st))).

(** [valueObservable.subscribe(valueSubject)]: the pipeline of [self]
    subscribes to the pauser and connects at once when it is [true]. *)
Definition valueObservable_subscribe (self : nat) : M unit :=
  modify (fun st =>
    let st1 := Store (cells st) (pauser st) (pausables st ++ [self]) in
    if pauser st then publish self (updCell (set_connected true) self st1)
    else st1).

(** ** Nodes *)

(** Modelled from the spec: [createNode], the node constructor that the
    state module passes in and that is not part of the source at hand.
    The node wraps the subjects of the cell it is given; called with a
    [provisionalNode] only, it wraps the subjects of that node (section
    4.1: the same underlying registry and stream plumbing).  A node is
    identified with its cell. *)
Definition createNode (plumbing : nat) (provisional : bool) : M nat :=
  modify (updCell (set_provisional provisional) plumbing) >> ret plumbing.

(** An add-child event. *)
Record event : Type := Event {
  key : string;
  value_of : value;
  provisional_of : bool
}.

(** [childrenObservable] emits [reg]: [getChildrenSubject] takes it, the
    replay buffer keeps it, and a connected pipeline recombines. *)
Definition childrenObservable_onNext (self : nat) (reg : list (string * nat))
  : M unit :=
  modify (fun st =>
    let st1 := updCell (set_children reg) self st in
    match getCell st1 self with
    | Some c => if connected c then publish self st1 else st1
    | None => st1
    end).

(** The selector of [createChildrenObservable], run by
    [addChildrenSubject.onNext(child)] on the branch [self], followed by
    the emission of its result.  The function takes [createTree], which is
    defined below and calls it again for the children of an object. *)
Definition createChildrenObservable
    (createTree : value -> bool -> option nat -> list nat -> M nat)
    (self : nat) (child : event) : M unit :=
  fun st =>
    let acc := match getCell st self with Some c => children c | None => [] end in
    let oldNode := lookupKey (key child) acc in
    let oldProvisional :=
      match oldNode with Some old => isProvisional st old | None => false end in
    if negb (isSome oldNode) || oldProvisional then
      (newNode <- createTree (value_of child) (provisional_of child) oldNode
                             (self :: upstreamOf st self);
       childrenObservable_onNext self (assign (key child) newNode acc)) st
    else if negb oldProvisional then
      (st, Throw (FinalizedError (key child)))
    else
      childrenObservable_onNext self acc st.

(** [updateAddChildrenSubject(initialState, addChildrenSubject, pauser)]. *)
Definition updateAddChildrenSubject
    (initialState : list (string * value))
    (addChildrenSubject_onNext : event -> M unit) : M unit :=
  pauser_onNext false >>
  forEach (fun kv => addChildrenSubject_onNext (Event (fst kv) (snd kv) false))
          initialState >>
  pauser_onNext true.

(** [createFinalTreeFromProvisionalNode]. *)
Definition createFinalTreeFromProvisionalNode
    (initialState : list (string * value))
    (addChildrenSubject_onNext : event -> M unit)
    (provisionalNode : nat) : M nat :=
  updateAddChildrenSubject initialState addChildrenSubject_onNext >>
  createNode provisionalNode false.

(** [createInitialTree]: fresh subjects, the initial population unless the
    node is provisional, then the pipeline and the node. *)
Definition createInitialTree
    (populate : nat -> M unit) (provisional : bool) (chain : list nat)
  : M nat :=
  self <- alloc (Cell KTree provisional [] false false [] [] chain);
  (if negb provisional then populate self else ret tt) >>
  valueObservable_subscribe self >>
  createNode self provisional.

(** [createLeaf]. *)
Definition createLeaf (initialState : value) (provisionalNode : option nat)
    (chain : list nat) : M nat :=
  fun st =>
    let registered :=
      match provisionalNode with
      | Some p =>
          match getCell st p with Some c => length (children c) | None => 0 end
      | None => 0
      end in
    if negb (Nat.eqb registered 0) then (st, Throw LeafOverChildrenError)
    else
      (leaf <- alloc (Cell KLeaf false [] false false [initialState] [] chain);
       createNode leaf false) st.

(** [createTree]. *)
Fixpoint createTree (initialState : value) (provisional : bool)
    (provisionalNode : option nat) (chain : list nat) {struct initialState}
  : M nat :=
  match initialState with
  | VUndefined => createInitialTree (fun _ => ret tt) true chain
  | VObj fields =>
      let addChildrenSubject self := createChildrenObservable createTree self in
      match negb provisional, provisionalNode with
      | true, Some p =>
          createFinalTreeFromProvisionalNode fields (addChildrenSubject p) p
      | _, _ =>
          createInitialTree
            (fun self => updateAddChildrenSubject fields (addChildrenSubject self))
            provisional chain
      end
  | _ =>
      if negb provisional then createLeaf initialState provisionalNode chain
      else createInitialTree (fun _ => ret tt) provisional chain
  end.

(** [addChildrenSubject.onNext(child)] on the branch [self]. *)
Definition addChildrenSubject_onNext (self : nat) (child : event) : M unit :=
  createChildrenObservable createTree self child.

(** ** State assignment *)

(** The setter of a leaf: [subject.onNext(newState)].  Every subscriber
    sits behind [distinctUntilChanged], and so does the branch above. *)
Definition leaf_setNextState (id : nat) (newState : value) : M unit :=
  modify (fun st =>
    match getCell st id with
    | Some c =>
        let st1 :=
          updCell (set_streams (subject c ++ [newState])
                               (map (distinctUntilChanged newState) (observers c)))
                  id st in
        match last (subject c) with
        | Some old =>
            if value_eqb old newState then st1
            else propagate (upstream c) id st1
        | None => propagate (upstream c) id st1
        end
    | None => st
    end).

(** [createTreeSetNextState]: the subscriber of
    [newStateSubject.withLatestFrom(childrenObservable)] on the branch
    [self].  Nothing runs before [childrenObservable] has emitted.
    [setNextState] is the setter of whatever node a registry entry holds. *)
Definition createTreeSetNextState
    (setNextState : value -> nat -> M unit) (self : nat) (newState : value)
  : M unit :=
  fun st =>
    match getCell st self with
    | None => (st, Ok tt)
    | Some c =>
        if emitted c then
          let keys := map fst (children c) in
          match objectKeys newState with
          | Throw e => (st, Throw e)
          | Ok newKeys =>
              if negb (Nat.eqb (length newKeys) (length keys)) then
                (st, Throw ShapeError)
              else
                forEach
                  (fun kc =>
                     match newState with
                     | VObj fields =>
                         (fix route (fs : list (string * value)) : M unit :=
                            match fs with
                            | [] => throw ShapeError
                            | (k, sub) :: fs' =>
                                if String.eqb k (fst kc)
                                then setNextState sub (snd kc)
                                else route fs'
                            end) fields
                     | _ => throw TypeError
                     end)
                  (children c) st
          end
        else (st, Ok tt)
    end.

(** [node.setNextState]: the setter of a leaf or of a branch, as the node
    at hand is one or the other. *)
Fixpoint setNextState (newState : value) (id : nat) {struct newState}
  : M unit :=
  fun st =>
    match getCell st id with
    | None => (st, Ok tt)
    | Some c =>
        match c_kind c with
        | KLeaf => leaf_setNextState id newState st
        | KTree => createTreeSetNextState setNextState id newState st
        end
    end.

(** ** Subscribers *)

(** A new subscriber of the node's observable: a leaf hands over its
    current value, a branch replays its last combined value, if any.  The
    result is the subscriber's index. *)
Definition subscribe (id : nat) : M nat :=
  fun st =>
    match getCell st id with
    | Some c =>
        (updCell (set_streams (subject c)
                              (observers c ++ [option_list (last (subject c))]))
                 id st,
         Ok (length (observers c)))
    | None => (st, Ok 0)
    end.

(** What subscriber [o] of node [id] has received so far. *)
Definition received (st : store) (id o : nat) : list value :=
  match getCell st id with
  | Some c => default [] (observers c !! o)
  | None => []
  end.

(** The values published so far on the stream of [id]. *)
Definition published (st : store) (id : nat) : list value :=
  match getCell st id with Some c => subject c | None => [] end.

Definition childrenOf (st : store) (id : nat) : list (string * nat) :=
  match getCell st id with Some c => children c | None => [] end.

(** * Notions used in the statements *)

(** ** Induction on values *)

Section ValueInd.
Variable P : value -> Prop.
Hypothesis Hundef : P VUndefined.
Hypothesis Hnull : P VNull.
Hypothesis Hbool : forall b, P (VBool b).
Hypothesis Hnum : forall n, P (VNum n).
Hypothesis Hstr : forall s, P (VStr s).
Hypothesis Hobj : forall fs, Forall (fun kv => P (snd kv)) fs -> P (VObj fs).

Fixpoint value_ind_nested (v : value) : P v :=
  match v with
  | VUndefined => Hundef
  | VNull => Hnull
  | VBool b => Hbool b
  | VNum n => Hnum n
  | VStr s => Hstr s
  | VObj fs =>
      Hobj fs
        ((fix all (fs : list (string * value))
            : Forall (fun kv => P (snd kv)) fs :=
            match fs with
            | [] => List.Forall_nil _
            | (k, sub) :: fs' =>
                List.Forall_cons _ (k, sub) fs' (value_ind_nested sub) (all fs')
            end) fs)
  end.
End ValueInd.

(** ** Assignment to a branch *)

(** The body of the [keys.forEach] of [createTreeSetNextState]: what the
    property test [key in newState] and the read [newState[key]] come to. *)
Definition assignChild (newState : value) (kc : string * nat) : M unit :=
  match newState with
  | VObj fields =>
      match lookupKey (fst kc) fields with
      | Some sub => setNextState sub (snd kc)
      | None => throw ShapeError
      end
  | _ => throw TypeError
  end.

(** ** Elementary updates *)

(** What a cell is, apart from its streams and its connection. *)
Definition skeleton (c : cell)
  : kind * bool * list (string * nat) * bool * list nat :=
  (c_kind c, provisional c, children c, emitted c, upstream c).


(** The elementary updates of the store: a new cell, a combined value
    published by the pipeline of a branch, a value pushed into a leaf, a
    change outside the streams, a change of the pause gate, and a new
    subscriber. *)
Inductive step : store -> store -> Prop :=
  | step_alloc st c :
      observers c = [] ->
      (c_kind c = KTree -> subject c = []) ->
      step st (Store (cells st ++ [c]) (pauser st) (pausables st))
  | step_publish st id v :
      createTreeObservable st id = Some v ->
      step st (valueSubject_onNext id v st)
  | step_leaf st id c v :
      getCell st id = Some c ->
      c_kind c = KLeaf ->
      step st (updCell (set_streams (subject c ++ [v])
                          (map (distinctUntilChanged v) (observers c))) id st)
  | step_shape st id f :
      (forall c, c_kind (f c) = c_kind c /\ subject (f c) = subject c /\
                 observers (f c) = observers c /\ upstream (f c) = upstream c) ->
      step st (updCell f id st)
  | step_gate st b ps :
      step st (Store (cells st) b ps)
  | step_subscribe st id c :
      getCell st id = Some c ->
      step st (updCell (set_streams (subject c)
                          (observers c ++ [option_list (last (subject c))]))
                       id st).

Definition steps : store -> store -> Prop := rtc step.

(** [m] only ever performs elementary updates. *)
Definition stepwise {A} (m : M A) : Prop := forall st, steps st (fst (m st)).

(** What a subscriber that has received [seen] holds after the values
    [news] went through the subject: all of them on a branch, the ones
    that differ from their predecessor on a leaf. *)
Definition deliver (k : kind) (news seen : list value) : list value :=
  match k with
  | KTree => seen ++ news
  | KLeaf => fold_left (fun acc w => distinctUntilChanged w acc) news seen
  end.

(** Between [st] and [st'] the node [id] kept its kind and its place, its
    subject took the values [news] and every subscriber it had received
    them. *)
Definition streams_extend (id : nat) (st st' : store) : Prop :=
  forall c, getCell st id = Some c ->
    exists c' news,
      getCell st' id = Some c' /\
      (c_kind c' = c_kind c /\ upstream c' = upstream c) /\
      subject c' = subject c ++ news /\
      forall o seen, observers c !! o = Some seen ->
                     observers c' !! o = Some (deliver (c_kind c) news seen).

(** ** The operations a caller can perform *)

Inductive operation : store -> store -> Prop :=
  | op_createTree st v b pn chain :
      operation st (fst (createTree v b pn chain st))
  | op_addChild st self child :
      operation st (fst (addChildrenSubject_onNext self child st))
  | op_setNextState st v id :
      operation st (fst (setNextState v id st))
  | op_subscribe st id :
      operation st (fst (subscribe id st)).

(** The stores that a sequence of operations leads to, whether the
    operations succeed or fail. *)
Definition evolves : store -> store -> Prop := rtc operation.

(** ** Outcomes *)



(** ** Concrete trees *)

Module Samples.
Local Open Scope string_scope.

(** A provisional root, as a forward reference creates it. *)
Definition provisionalRoot : store :=
  fst (createTree VUndefined false None [] empty_store).

(** The root [{a: 1, b: 2}]: cell 0 is the branch, 1 and 2 the leaves. *)
Definition flatRoot : store :=
  fst (createTree (VObj [("a", VNum 1); ("b", VNum 2)]) false None []
                  empty_store).


(** The provisional root after a forward reference to its key [b]. *)
Definition forwardRef : store :=
  fst (addChildrenSubject_onNext 0 (Event "b" VUndefined true)
                                 provisionalRoot).

(** The root [{a: {x: 1}, b: 2}]: cell 0 is the root, 1 the branch [a],
    2 the leaf [x], 3 the leaf [b]. *)
Definition nestedRoot : store :=
  fst (createTree (VObj [("a", VObj [("x", VNum 1)]); ("b", VNum 2)])
                  false None [] empty_store).


(** [flatRoot] with a subscriber on the leaf [a]. *)
Definition watchedLeaf : store := fst (subscribe 1 flatRoot).

(** [provisionalRoot] with a subscriber on the root. *)
Definition watchedRoot : store := fst (subscribe 0 provisionalRoot).

(** [flatRoot] after a second, rejected declaration of its shape: the
    population stopped at the finalized key [a] and the gate is closed. *)
Definition pausedFlat : store :=
  fst (createTree (VObj [("a", VNum 5)]) false (Some 0) [] flatRoot).

Definition cellOf (st : store) (id : nat) : cell :=
  default (Cell KLeaf false [] false false [] [] []) (getCell st id).
End Samples.

(** * The display state of the TodoMVC example *)

Module Display.

(** The constants of [../constants] that the example reads: the names of
    the three filters.  They come with the import and are taken as a
    parameter. *)
Record filters : Type := Filters {
  SHOW_ALL : string;
  SHOW_ACTIVE : string;
  SHOW_COMPLETED : string
}.

(** Truthiness of a value, as [!x] and [x ? a : b] test it. *)
Definition truthy (v : value) : bool :=
  match v with
  | VUndefined | VNull => false
  | VBool b => b
  | VNum n => negb (Z.eqb n 0)
  | VStr s => negb (String.eqb s EmptyString)
  | VObj _ => true
  end.

(** [todo.completed], as a condition; a todo is an object. *)
Definition completed (todo : value) : bool :=
  match todo with
  | VObj fields => truthy (default VUndefined (lookupKey "completed" fields))
  | _ => false
  end.

(** [createFilteredTodos(filter)(todo)], as [Array.filter] reads it. *)
Definition createFilteredTodos (filters : filters) (filter : string)
    (todo : value) : bool :=
  if String.eqb filter (SHOW_ACTIVE filters) then negb (completed todo)
  else if String.eqb filter (SHOW_COMPLETED filters) then completed todo
  else true.

(** The reducer of [filteredTodos]. *)
Definition filteredTodos (filters : filters) (todos : list value)
    (filter : string) : list value :=
  List.filter (createFilteredTodos filters filter) todos.



End Display.

(** * Notions used in the further properties *)

(** [m] takes every store to one related to it by [R], whether it
    succeeds or fails. *)
Definition respects {A} (R : relation store) (m : M A) : Prop :=
  forall st, R st (fst (m st)).

(** [m] keeps the invariant [I]. *)
Definition keeps {A} (I : store -> Prop) (m : M A) : Prop :=
  forall st, I st -> I (fst (m st)).



(** Everything in a cell but the values on its streams. *)
Definition frame (c : cell)
  : kind * bool * list (string * nat) * bool * list nat * bool * nat :=
  (c_kind c, provisional c, children c, emitted c, upstream c, connected c,
   length (observers c)).

(** Nothing changed between two stores but values on streams. *)
Definition same_frame (st st' : store) : Prop :=
  map frame (cells st') = map frame (cells st) /\
  pauser st' = pauser st /\
  pausables st' = pausables st.

(** The pipelines that subscribed to the pauser are cells of the store,
    and a cell is connected exactly when the gate is open and its pipeline
    has subscribed. *)
Definition gate_ok (st : store) : Prop :=
  (forall id, id ∈ pausables st -> id < length (cells st)) /\
  forall id c,
    getCell st id = Some c ->
    connected c = pauser st && bool_decide (id ∈ pausables st).

(** A node that is final in [st] is still there and final in [st']. *)
Definition final_kept (st st' : store) : Prop :=
  forall id c,
    getCell st id = Some c -> provisional c = false ->
    exists c', getCell st' id = Some c' /\ provisional c' = false.

(** No two neighbours of the list are equal. *)
Fixpoint no_repeat (l : list value) : Prop :=
  match l with
  | x :: (y :: _) as l' => x <> y /\ no_repeat l'
  | _ => True
  end.

(** No pipeline is connected. *)
Definition all_disconnected (st : store) : Prop :=
  forall id c, getCell st id = Some c -> connected c = false.

(** The branches of [st] are in [st'] exactly as they were. *)
Definition branches_untouched (st st' : store) : Prop :=
  forall id c, getCell st id = Some c -> c_kind c = KTree ->
               getCell st' id = Some c.

(** What reconnecting or disconnecting a list of pipelines comes to. *)
Definition connections_set (b : bool) (l : list nat) (st st' : store) : Prop :=
  pauser st' = pauser st /\ pausables st' = pausables st /\
  length (cells st') = length (cells st) /\
  forall id c', getCell st' id = Some c' ->
    exists c, getCell st id = Some c /\
              connected c' = if bool_decide (id ∈ l) then b else connected c.


(** The registry [reg] names, key by key and in order, nodes that hold
    the values of [fs] in the sense of [P]; the nodes follow one another
    in the store, the first at [next], the last ending at [hi]. *)
Fixpoint children_settled (P : value -> nat -> nat -> Prop)
    (fs : list (string * value)) (reg : list (string * nat))
    (next hi : nat) {struct fs} : Prop :=
  match fs, reg with
  | [], [] => next = hi
  | (k, sub) :: fs', (k', child) :: reg' =>
      k = k' /\ child = next /\
      exists h, P sub child h /\ children_settled P fs' reg' h hi
  | _, _ => False
  end.

(** The node [id] holds [v], below the branches [up] (nearest first), in
    the cells from [id] up to [hi], laid out as [createTree] lays them out:
    a final leaf whose current value is [v]; or a final branch, subscribed
    to the pauser, whose registry has the keys of [v] in order, whose
    children hold the values of [v], one after the other in the store, and
    whose last published value is [v]. *)
Fixpoint settled (st : store) (up : list nat) (v : value) (id hi : nat)
    {struct v} : Prop :=
  Forall (fun a => a < id) up /\
  match v with
  | VUndefined => False
  | VObj fs =>
      exists c,
        getCell st id = Some c /\ c_kind c = KTree /\
        provisional c = false /\ emitted c = true /\ upstream c = up /\
        id ∈ pausables st /\
        last (subject c) = Some (VObj fs) /\
        fs <> [] /\ NoDup (map fst fs) /\
        (fix kids (fs : list (string * value)) (reg : list (string * nat))
             (next : nat) {struct fs} : Prop :=
           match fs, reg with
           | [], [] => next = hi
           | (k, sub) :: fs', (k', child) :: reg' =>
               k = k' /\ child = next /\
               exists h, settled st (id :: up) sub child h /\ kids fs' reg' h
           | _, _ => False
           end) fs (children c) (S id)
  | _ =>
      exists c,
        getCell st id = Some c /\ c_kind c = KLeaf /\
        provisional c = false /\ upstream c = up /\
        last (subject c) = Some v /\ hi = S id
  end.





(** [v'] has the shape of [v]: the same keys in the same order at every
    level, and a value that is neither an object nor [undefined] where
    [v] has one. *)
Fixpoint same_shape (v v' : value) {struct v} : Prop :=
  match v, v' with
  | VObj fs, VObj fs' =>
      (fix fields (fs fs' : list (string * value)) {struct fs} : Prop :=
         match fs, fs' with
         | [], [] => True
         | (k, sub) :: fs1, (k', sub') :: fs1' =>
             k = k' /\ same_shape sub sub' /\ fields fs1 fs1'
         | _, _ => False
         end) fs fs'
  | VObj _, _ => False
  | _, VObj _ => False
  | _, VUndefined => False
  | _, _ => True
  end.

(** The first [d] branches of the chain [up] above the node [x] are live:
    each one is connected and listens to the node below it, has its
    children after it and its own chain before it in the store, and can
    combine a value. *)
Fixpoint wire (d : nat) (st : store) (x : nat) (up : list nat) {struct d}
  : Prop :=
  match d, up with
  | 0, _ => True
  | S d', p :: up' =>
      listening st p x = true /\
      Forall (fun kc => p < snd kc) (childrenOf st p) /\
      Forall (fun a => a < p) up' /\
      isSome (createTreeObservable st p) = true /\
      wire d' st p up'
  | S _, [] => False
  end.

(** The first [d] branches of the chain [up] are up to date: the last
    value each one published is what it combines now. *)
Fixpoint fresh (d : nat) (st : store) (up : list nat) {struct d} : Prop :=
  match d, up with
  | 0, _ => True
  | S d', p :: up' =>
      createTreeObservable st p = latestValue st p /\ fresh d' st up'
  | S _, [] => False
  end.

(** The cells outside [lo..hi) and outside the chain [up] are the same in
    both stores. *)
Definition others_same (lo hi : nat) (up : list nat) (st st' : store)
  : Prop :=
  forall j, j < lo \/ hi <= j -> j ∉ up -> getCell st' j = getCell st j.

(** The states a branch goes through while the fields [fs] are replaced
    one after the other by the fields [fs'], after [done']: every stage
    of a field, seated among the fields assigned before it and the fields
    not assigned yet. *)
Fixpoint stages_fields (stages : value -> value -> list value)
    (done' fs fs' : list (string * value)) {struct fs} : list value :=
  match fs, fs' with
  | (k, sub) :: t, (k', sub') :: t' =>
      map (fun w => VObj (done' ++ (k', w) :: t)) (stages sub sub')
      ++ stages_fields stages (done' ++ [(k', sub')]) t t'
  | _, _ => []
  end.

(** The values a node that holds [v] publishes while it is assigned [v']:
    a leaf its new value, if it differs; a branch one value for every
    value that a child publishes, in the order of the walk. *)
Fixpoint stages (v v' : value) {struct v} : list value :=
  match v with
  | VObj fs =>
      match v' with
      | VObj fs' =>
          (fix walk (done' fs fs' : list (string * value)) {struct fs}
             : list value :=
             match fs, fs' with
             | (k, sub) :: t, (k', sub') :: t' =>
                 map (fun w => VObj (done' ++ (k', w) :: t)) (stages sub sub')
                 ++ walk (done' ++ [(k', sub')]) t t'
             | _, _ => []
             end) [] fs fs'
      | _ => []
      end
  | _ => if value_eqb v v' then [] else [v']
  end.

(** What the branch [p] combines in [st] once its child [x] holds [w]. *)
Definition reseat (st : store) (p x : nat) (w : value) : value :=
  VObj (map (fun kc => (fst kc,
                        if Nat.eqb (snd kc) x then w
                        else default VUndefined (latestValue st (snd kc))))
            (latestNodes st (childrenOf st p))).

(** While the node [x] published the values [ws], each of the first [d]
    branches of the chain [up] published what it combined for each of
    them, and nothing else. *)
Fixpoint grown (d : nat) (st st' : store) (x : nat) (up : list nat)
    (ws : list value) {struct d} : Prop :=
  match d, up with
  | 0, _ => True
  | S d', p :: up' =>
      published st' p = published st p ++ map (reseat st p x) ws /\
      grown d' st st' p up' (map (reseat st p x) ws)
  | S _, [] => False
  end.

(** The other children of the first [d] branches of the chain [up] above
    [x] lie outside the cells [lo..hi) and outside the chain [up0]. *)
Fixpoint apart (d : nat) (st : store) (lo hi : nat) (up0 : list nat)
    (x : nat) (up : list nat) {struct d} : Prop :=
  match d, up with
  | 0, _ => True
  | S d', p :: up' =>
      Forall (fun kc => snd kc = x \/
                        ((snd kc < lo \/ hi <= snd kc) /\ snd kc ∉ up0))
             (childrenOf st p) /\
      apart d' st lo hi up0 p up'
  | S _, [] => False
  end.

(** Assigning to a tree that holds [v] a state [v'] of the same shape, in
    a store whose connections follow the gate, succeeds and changes
    values only; the tree then holds [v'], the live branches above it
    stay live and are up to date again, the cells outside the tree and
    the chain are as they were, and the tree and the live branches have
    published the stages of the assignment and nothing else. *)
Definition assigned (v : value) : Prop :=
  forall v' st up id hi d,
    settled st up v id hi -> same_shape v v' ->
    gate_ok st -> (isPlainObject v = true -> pauser st = true) ->
    wire d st id up -> fresh d st up -> apart d st id hi up id up ->
    exists st',
      setNextState v' id st = (st', Ok tt) /\
      same_frame st st' /\
      settled st' up v' id hi /\
      wire d st' id up /\ fresh d st' up /\
      others_same id hi up st st' /\
      (isPlainObject v = true ->
       published st' id = published st id ++ stages v v') /\
      grown d st st' id up (stages v v').

(** The gate is where it was. *)
Definition same_gate (st st' : store) : Prop := pauser st' = pauser st.

(** Assigning to a tree the state [v] it holds succeeds, changes values
    only, leaves every branch as it was and every latest value in place. *)
Definition reassigned (v : value) : Prop :=
  forall st up id hi,
    settled st up v id hi ->
    exists st',
      setNextState v id st = (st', Ok tt) /\
      same_frame st st' /\
      branches_untouched st st' /\
      (forall j, latestValue st' j = latestValue st j).

(** * Properties *)

(** ** Equality of values *)

Lemma value_eqb_refl v : value_eqb v v = true.
Proof.
  induction v using value_ind_nested; simpl; auto.
  - by destruct b.
  - apply Z.eqb_refl.
  - apply String.eqb_refl.
  - induction H as [|[k x] fs Hx _ IH]; [done|].
    simpl in Hx. rewrite String.eqb_refl, Hx. exact IH.
Qed.

Lemma value_eqb_eq a b : value_eqb a b = true -> a = b.
Proof.
  revert b. induction a using value_ind_nested; intros [] E; simpl in E;
    try discriminate; auto.
  - f_equal. by apply Bool.eqb_prop.
  - f_equal. by apply Z.eqb_eq.
  - f_equal. by apply String.eqb_eq.
  - f_equal. revert fields E.
    induction H as [|[k x] fs Hx _ IH]; intros [|[k' x'] gs] E;
      try discriminate; auto.
    apply andb_prop in E as [E E3]. apply andb_prop in E as [E1 E2].
    apply String.eqb_eq in E1. apply Hx in E2. simpl in E2.
    f_equal; [congruence | by apply IH].
Qed.

(** ** The monad and [forEach] *)

Lemma forEach_cons {A} (f : A -> M unit) x l st :
  forEach f (x :: l) st =
  match f x st with
  | (st', Ok _) => forEach f l st'
  | (st', Throw e) => (st', Throw e)
  end.
Proof. reflexivity. Qed.


Lemma forEach_errors {A} (f : A -> M unit) (E : error -> Prop) l :
  (forall y st st' e, y ∈ l -> f y st = (st', Throw e) -> E e) ->
  forall st st' e, forEach f l st = (st', Throw e) -> E e.
Proof.
  induction l as [|y l IH]; intros Hall st st' e.
  - discriminate.
  - rewrite forEach_cons. destruct (f y st) as [st1 [[]|e1]] eqn:Hy.
    + apply IH. intros z s s' e' Hz. apply Hall. by right.
    + intros [= <- <-]. eapply Hall; [by left | exact Hy].
Qed.

Lemma forEach_ext {A} (f g : A -> M unit) l :
  (forall x st, x ∈ l -> f x st = g x st) ->
  forall st, forEach f l st = forEach g l st.
Proof.
  induction l as [|y l IH]; intros Hfg st; [done|].
  rewrite !forEach_cons, Hfg by (by left).
  destruct (g y st) as [st1 [[]|e]]; [|done].
  apply IH. intros x s Hx. apply Hfg. by right.
Qed.

(** ** Assignment to a branch *)

Lemma setNextState_unfold newState id st :
  setNextState newState id st =
  match getCell st id with
  | None => (st, Ok tt)
  | Some c =>
      match c_kind c with
      | KLeaf => leaf_setNextState id newState st
      | KTree =>
          if emitted c then
            match objectKeys newState with
            | Throw e => (st, Throw e)
            | Ok newKeys =>
                if negb (Nat.eqb (length newKeys)
                                 (length (map fst (children c))))
                then (st, Throw ShapeError)
                else forEach (assignChild newState) (children c) st
            end
          else (st, Ok tt)
      end
  end.
Proof.
  destruct newState; simpl; unfold createTreeSetNextState;
    (destruct (getCell st id) as [c|]; [|done]);
    (destruct (c_kind c); [done|]); try reflexivity.
  destruct (emitted c); [|done]. simpl.
  destruct (negb _); [done|].
  apply forEach_ext. intros [k child] s _. simpl.
  induction fields as [|[k' sub] fs IH]; simpl; [done|].
  destruct (String.eqb k' k); [done | exact IH].
Qed.


Lemma lookupKey_Some {A} key (o : list (string * A)) x :
  lookupKey key o = Some x -> (key, x) ∈ o.
Proof.
  induction o as [|[k y] o IH]; simpl; [done|].
  destruct (String.eqb k key) eqn:E.
  - apply String.eqb_eq in E. intros [= ->]. subst. by left.
  - intros H. right. by apply IH.
Qed.

(** A setter raises nothing but a shape error or, for a value the runtime
    cannot take the properties of, a type error. *)
Lemma setNextState_errors newState :
  forall id st st' e,
    setNextState newState id st = (st', Throw e) ->
    e = ShapeError \/ e = TypeError.
Proof.
  induction newState as [| | | | |fs IH] using value_ind_nested;
    intros id st st' e; rewrite setNextState_unfold;
    (destruct (getCell st id) as [c|]; [|discriminate]);
    (destruct (c_kind c); [discriminate|]);
    (destruct (emitted c); [|discriminate]); simpl;
    try (intros [= <- <-]; by right);
    (destruct (negb _); [intros [= <- <-]; by left|]).
  all: try (apply (forEach_errors _ (fun e => e = ShapeError \/ e = TypeError));
            intros y s1 s2 e' _ [= <- <-]; by right).
  apply (forEach_errors _ (fun e => e = ShapeError \/ e = TypeError)).
  intros [k child] s1 s2 e' _. unfold assignChild. simpl.
  destruct (lookupKey k fs) as [sub|] eqn:Hk.
  - apply lookupKey_Some in Hk.
    rewrite Forall_forall in IH. apply (IH _ Hk).
  - intros [= <- <-]. by left.
Qed.

(** C10: on a provisional branch whose registry has never emitted, the
    setter returns normally for every value and changes nothing: the
    assignment is dropped by [withLatestFrom]. *)
Theorem setNextState_dropped_before_first_child st id c newState :
  getCell st id = Some c ->
  c_kind c = KTree ->
  provisional c = true ->
  emitted c = false ->
  setNextState newState id st = (st, Ok tt).
Proof.
  intros Hc Hk _ He. rewrite setNextState_unfold, Hc, Hk, He. reflexivity.
Qed.

Lemma setNextState_dropped_before_first_child_witness :
  setNextState (VObj [("zzz"%string, VNum 1)]) 0 Samples.provisionalRoot
  = (Samples.provisionalRoot, Ok tt).
Proof.
  apply (setNextState_dropped_before_first_child
           Samples.provisionalRoot 0 (Samples.cellOf Samples.provisionalRoot 0));
    reflexivity.
Defined.


Lemma updCell_getCell f id st c :
  getCell st id = Some c -> getCell (updCell f id st) id = Some (f c).
Proof.
  unfold getCell, updCell. simpl. intros H.
  by rewrite list_lookup_alter_eq, H.
Qed.

Lemma updCell_getCell_ne f id id' st :
  id <> id' -> getCell (updCell f id st) id' = getCell st id'.
Proof. intros H. unfold getCell, updCell. simpl. by apply list_lookup_alter_ne. Qed.

(** ** What publishing leaves alone *)












(** ** Every operation is a sequence of elementary updates *)

Lemma stepwise_ret {A} (a : A) : stepwise (ret a).
Proof. intros st. apply rtc_refl. Qed.

Lemma stepwise_throw {A} e : stepwise (@throw A e).
Proof. intros st. apply rtc_refl. Qed.

Lemma stepwise_bind {A B} (m : M A) (f : A -> M B) :
  stepwise m -> (forall a, stepwise (f a)) -> stepwise (bind m f).
Proof.
  intros Hm Hf st. unfold bind. specialize (Hm st).
  destruct (m st) as [st1 [a|e]]; simpl in *; [|done].
  eapply rtc_trans; [exact Hm | apply Hf].
Qed.

Lemma stepwise_modify g : (forall st, steps st (g st)) -> stepwise (modify g).
Proof. intros H st. apply H. Qed.

Lemma stepwise_forEach {A} (f : A -> M unit) l :
  (forall x, x ∈ l -> stepwise (f x)) -> stepwise (forEach f l).
Proof.
  induction l as [|x l IH]; intros Hf; simpl; [apply stepwise_ret|].
  apply stepwise_bind; [apply Hf; by left|]. intros _.
  apply IH. intros y Hy. apply Hf. by right.
Qed.

Lemma steps_shape st id f :
  (forall c, c_kind (f c) = c_kind c /\ subject (f c) = subject c /\
             observers (f c) = observers c /\ upstream (f c) = upstream c) ->
  steps st (updCell f id st).
Proof. intros H. apply rtc_once. by constructor. Qed.

Lemma propagate_steps chain :
  forall child st, steps st (propagate chain child st).
Proof.
  induction chain as [|p chain IH]; intros child st; simpl; [apply rtc_refl|].
  destruct (listening st p child); [|apply rtc_refl].
  destruct (createTreeObservable st p) as [v|] eqn:Hv; [|apply rtc_refl].
  eapply rtc_l; [by apply step_publish | apply IH].
Qed.

Lemma publish_steps id st : steps st (publish id st).
Proof.
  unfold publish.
  destruct (createTreeObservable st id) as [v|] eqn:Hv; [|apply rtc_refl].
  eapply rtc_l; [by apply step_publish | apply propagate_steps].
Qed.

Lemma fold_left_steps {A} (f : store -> A -> store) l :
  (forall s x, steps s (f s x)) -> forall st, steps st (fold_left f l st).
Proof.
  intros Hf. induction l as [|x l IH]; intros st; simpl; [apply rtc_refl|].
  eapply rtc_trans; [apply Hf | apply IH].
Qed.

Lemma pauser_onNext_stepwise b : stepwise (pauser_onNext b).
Proof.
  apply stepwise_modify. intros st.
  destruct (Bool.eqb b (pauser st)); [apply rtc_refl|].
  destruct b.
  - eapply rtc_l; [apply (step_gate st true (pausables st))|].
    apply fold_left_steps. intros s id.
    eapply rtc_trans; [|apply publish_steps]. by apply steps_shape.
  - eapply rtc_l; [apply (step_gate st false (pausables st))|].
    apply fold_left_steps. intros s id. by apply steps_shape.
Qed.

Lemma valueObservable_subscribe_stepwise self :
  stepwise (valueObservable_subscribe self).
Proof.
  apply stepwise_modify. intros st.
  eapply rtc_l; [apply (step_gate st (pauser st) (pausables st ++ [self]))|].
  destruct (pauser st); [|apply rtc_refl].
  eapply rtc_trans; [|apply publish_steps]. by apply steps_shape.
Qed.

Lemma createNode_stepwise plumbing b : stepwise (createNode plumbing b).
Proof.
  apply stepwise_bind; [|intros; apply stepwise_ret].
  apply stepwise_modify. intros st. by apply steps_shape.
Qed.

Lemma alloc_stepwise c :
  observers c = [] -> (c_kind c = KTree -> subject c = []) -> stepwise (alloc c).
Proof. intros H H' st. apply rtc_once. by constructor. Qed.

Lemma childrenObservable_onNext_stepwise self reg :
  stepwise (childrenObservable_onNext self reg).
Proof.
  apply stepwise_modify. intros st.
  eapply rtc_trans; [by apply (steps_shape st self (set_children reg))|].
  cbv zeta.
  destruct (getCell (updCell (set_children reg) self st) self) as [c|];
    [|apply rtc_refl].
  destruct (connected c); [apply publish_steps | apply rtc_refl].
Qed.

Lemma createChildrenObservable_stepwise create self child :
  (forall b pn chain, stepwise (create (value_of child) b pn chain)) ->
  stepwise (createChildrenObservable create self child).
Proof.
  intros Hc st. unfold createChildrenObservable.
  destruct (negb _ || _).
  - apply (stepwise_bind (create _ _ _ _)); [apply Hc|].
    intros a. apply childrenObservable_onNext_stepwise.
  - destruct (negb _); [apply rtc_refl|].
    apply childrenObservable_onNext_stepwise.
Qed.

Lemma updateAddChildrenSubject_stepwise fields onNext :
  (forall kv, kv ∈ fields -> stepwise (onNext (Event (fst kv) (snd kv) false))) ->
  stepwise (updateAddChildrenSubject fields onNext).
Proof.
  intros H. unfold updateAddChildrenSubject.
  apply stepwise_bind; [apply pauser_onNext_stepwise|]. intros _.
  apply stepwise_bind; [|intros _; apply pauser_onNext_stepwise].
  by apply stepwise_forEach.
Qed.

Lemma createInitialTree_stepwise populate b chain :
  (forall self, stepwise (populate self)) ->
  stepwise (createInitialTree populate b chain).
Proof.
  intros H. unfold createInitialTree.
  apply stepwise_bind; [by apply alloc_stepwise|]. intros self.
  apply stepwise_bind.
  { destruct (negb b); [apply H | apply stepwise_ret]. }
  intros _. apply stepwise_bind; [apply valueObservable_subscribe_stepwise|].
  intros _. apply createNode_stepwise.
Qed.

Lemma createLeaf_stepwise v pn chain : stepwise (createLeaf v pn chain).
Proof.
  intros st. unfold createLeaf. destruct (negb _); [apply rtc_refl|].
  apply (stepwise_bind (alloc _)); [by apply alloc_stepwise|].
  intros leaf. apply createNode_stepwise.
Qed.

Lemma createTree_stepwise v :
  forall b pn chain, stepwise (createTree v b pn chain).
Proof.
  induction v as [| | | | |fs IH] using value_ind_nested;
    intros prov pn chain; simpl;
    try (destruct (negb prov); [apply createLeaf_stepwise|]);
    try (apply createInitialTree_stepwise; intros; apply stepwise_ret).
  rewrite Forall_forall in IH.
  assert (Hev : forall self kv, kv ∈ fs ->
            stepwise (createChildrenObservable createTree self
                        (Event (fst kv) (snd kv) false))).
  { intros self kv Hkv. apply createChildrenObservable_stepwise. simpl.
    intros. by apply IH. }
  destruct (negb prov), pn as [p|];
    try (apply createInitialTree_stepwise; intros self;
         apply updateAddChildrenSubject_stepwise; auto).
  unfold createFinalTreeFromProvisionalNode.
  apply stepwise_bind; [|intros _; apply createNode_stepwise].
  apply updateAddChildrenSubject_stepwise; auto.
Qed.

Lemma addChildrenSubject_onNext_stepwise self child :
  stepwise (addChildrenSubject_onNext self child).
Proof.
  apply createChildrenObservable_stepwise. intros. apply createTree_stepwise.
Qed.

Lemma leaf_setNextState_stepwise st id c v :
  getCell st id = Some c -> c_kind c = KLeaf ->
  steps st (fst (leaf_setNextState id v st)).
Proof.
  intros Hc Hk. unfold leaf_setNextState, modify. simpl. rewrite Hc.
  eapply rtc_l; [by apply (step_leaf st id c v)|].
  destruct (last (subject c)) as [old|]; [|apply propagate_steps].
  destruct (value_eqb old v); [apply rtc_refl | apply propagate_steps].
Qed.

Lemma setNextState_stepwise v : forall id, stepwise (setNextState v id).
Proof.
  induction v as [| | | | |fs IH] using value_ind_nested; intros id st;
    rewrite setNextState_unfold;
    (destruct (getCell st id) as [c|] eqn:Hc; [|apply rtc_refl]);
    (destruct (c_kind c) eqn:Hk; [by apply (leaf_setNextState_stepwise st id c)|]);
    (destruct (emitted c); [|apply rtc_refl]);
    (destruct (objectKeys _); [|apply rtc_refl]);
    (destruct (negb _); [apply rtc_refl|]);
    apply stepwise_forEach; intros [k child] _; unfold assignChild;
    try apply stepwise_throw.
  simpl. destruct (lookupKey k fs) as [sub|] eqn:Hsub; [|apply stepwise_throw].
  apply lookupKey_Some in Hsub. rewrite Forall_forall in IH.
  apply (IH _ Hsub).
Qed.

Lemma subscribe_stepwise id : stepwise (subscribe id).
Proof.
  intros st. unfold subscribe.
  destruct (getCell st id) as [c|] eqn:Hc; [|apply rtc_refl].
  apply rtc_once. by apply step_subscribe.
Qed.

(** ** Streams only grow *)

Lemma deliver_nil k seen : deliver k [] seen = seen.
Proof. destruct k; simpl; [done | apply app_nil_r]. Qed.

Lemma deliver_app k n1 n2 seen :
  deliver k (n1 ++ n2) seen = deliver k n2 (deliver k n1 seen).
Proof. destruct k; simpl; [apply fold_left_app | apply app_assoc]. Qed.

Lemma streams_extend_refl id st : streams_extend id st st.
Proof.
  intros c Hc. exists c, []. rewrite app_nil_r. repeat split; auto.
  intros o seen Ho. by rewrite deliver_nil.
Qed.

Lemma streams_extend_trans id st1 st2 st3 :
  streams_extend id st1 st2 -> streams_extend id st2 st3 ->
  streams_extend id st1 st3.
Proof.
  intros H12 H23 c Hc.
  destruct (H12 c Hc) as (c2 & n1 & Hc2 & [Hk2 Hu2] & Hs2 & Ho2).
  destruct (H23 c2 Hc2) as (c3 & n2 & Hc3 & [Hk3 Hu3] & Hs3 & Ho3).
  exists c3, (n1 ++ n2). split; [done|]. split; [split; congruence|].
  split; [by rewrite Hs3, Hs2, app_assoc|].
  intros o seen Ho. rewrite deliver_app.
  rewrite Hk2 in Ho3. by apply Ho3, Ho2.
Qed.

Lemma streams_extend_same id st st' :
  getCell st' id = getCell st id -> streams_extend id st st'.
Proof.
  intros E c Hc. exists c, []. rewrite E, app_nil_r. repeat split; auto.
  intros o seen Ho. by rewrite deliver_nil.
Qed.

Lemma createTreeObservable_kind st id v :
  createTreeObservable st id = Some v ->
  exists c, getCell st id = Some c /\ c_kind c = KTree.
Proof.
  unfold createTreeObservable. destruct (getCell st id) as [c|]; [|done].
  destruct (c_kind c) eqn:E; [done|]. eauto.
Qed.

Lemma step_streams_extend id st st' : step st st' -> streams_extend id st st'.
Proof.
  intros Hstep. destruct Hstep as
    [st c Ho Hs | st id' v Hv | st id' c0 v Hc0 Hk0 | st id' f Hf | st b ps
    | st id' c0 Hc0].
  - intros c' Hc'. exists c', []. rewrite app_nil_r.
    split; [|repeat split; auto; intros; by rewrite deliver_nil].
    unfold getCell in *. simpl. by apply lookup_app_l_Some.
  - destruct (decide (id' = id)) as [->|Hne];
      [|by apply streams_extend_same, updCell_getCell_ne].
    intros c Hc. destruct (createTreeObservable_kind _ _ _ Hv) as (c1 & Hc1 & Hk).
    assert (c1 = c) as -> by congruence.
    eexists _, [v]. split; [by apply updCell_getCell|]. simpl.
    repeat split; auto. intros o seen Ho. rewrite Hk. simpl.
    by rewrite list_lookup_fmap, Ho.
  - destruct (decide (id' = id)) as [->|Hne];
      [|by apply streams_extend_same, updCell_getCell_ne].
    intros c Hc. assert (c0 = c) as -> by congruence.
    eexists _, [v]. split; [by apply updCell_getCell|]. simpl.
    repeat split; auto. intros o seen Ho. rewrite Hk0. simpl.
    by rewrite list_lookup_fmap, Ho.
  - destruct (decide (id' = id)) as [->|Hne];
      [|by apply streams_extend_same, updCell_getCell_ne].
    intros c Hc. destruct (Hf c) as (Hk & Hs & Ho & Hu).
    exists (f c), []. split; [by apply updCell_getCell|].
    rewrite app_nil_r. repeat split; auto.
    intros o seen Hseen. by rewrite deliver_nil, Ho.
  - by apply streams_extend_same.
  - destruct (decide (id' = id)) as [->|Hne];
      [|by apply streams_extend_same, updCell_getCell_ne].
    intros c Hc. assert (c0 = c) as -> by congruence.
    eexists _, []. split; [by apply updCell_getCell|]. simpl.
    rewrite app_nil_r. repeat split; auto.
    intros o seen Ho. rewrite deliver_nil. by apply lookup_app_l_Some.
Qed.

Lemma steps_streams_extend id st st' : steps st st' -> streams_extend id st st'.
Proof.
  induction 1 as [|st1 st2 st3 Hstep _ IH]; [apply streams_extend_refl|].
  eapply streams_extend_trans; [by apply step_streams_extend | exact IH].
Qed.

Lemma operation_steps st st' : operation st st' -> steps st st'.
Proof.
  intros [s v b pn chain | s self child | s v id | s id].
  - apply createTree_stepwise.
  - apply addChildrenSubject_onNext_stepwise.
  - apply setNextState_stepwise.
  - apply subscribe_stepwise.
Qed.

Lemma evolves_steps st st' : evolves st st' -> steps st st'.
Proof.
  induction 1 as [|st1 st2 st3 Hop _ IH]; [apply rtc_refl|].
  eapply rtc_trans; [by apply operation_steps | exact IH].
Qed.



(** ** Leaves *)






(** ** Promotion to a leaf *)

(** C7: giving an opaque value to a provisional node that has a registered
    child fails, with the error of [createLeaf], and creates nothing. *)
Theorem leaf_over_provisional_with_children_fails
    st p c initialState chain :
  getCell st p = Some c ->
  provisional c = true ->
  children c <> [] ->
  isPlainObject initialState = false ->
  initialState <> VUndefined ->
  createTree initialState false (Some p) chain st
  = (st, Throw LeafOverChildrenError).
Proof.
  intros Hc _ Hch Hobj Hdef.
  destruct initialState; try done; simpl; unfold createLeaf; rewrite Hc;
    destruct (children c); done.
Qed.

Lemma leaf_over_provisional_with_children_fails_witness :
  createTree (VNum 3) false (Some 0) [] Samples.forwardRef
  = (Samples.forwardRef, Throw LeafOverChildrenError).
Proof.
  apply (leaf_over_provisional_with_children_fails
           Samples.forwardRef 0 (Samples.cellOf Samples.forwardRef 0));
    try reflexivity; vm_compute; discriminate.
Defined.

(** ** The add-child protocol *)



Lemma steps_getCell st st' id c :
  steps st st' -> getCell st id = Some c ->
  exists c', getCell st' id = Some c' /\ c_kind c' = c_kind c.
Proof.
  intros Hs Hc.
  destruct (steps_streams_extend id _ _ Hs c Hc) as (c' & _ & H & [Hk _] & _).
  eauto.
Qed.


Lemma bind_ok {A B} (m : M A) (f : A -> M B) st st1 a :
  m st = (st1, Ok a) -> bind m f st = f a st1.
Proof. intros H. unfold bind. by rewrite H. Qed.

Lemma bind_throw {A B} (m : M A) (f : A -> M B) st st1 e :
  m st = (st1, Throw e) -> bind m f st = (st1, Throw e).
Proof. intros H. unfold bind. by rewrite H. Qed.







(** ** Creating a tree from scratch always succeeds *)









(** ** Finalizing a provisional node in place *)






(** ** What a branch publishes *)







(** ** The pause gate during a bulk declaration *)

(** C5 fails on the code.  The pauser is shared by the whole tree, and the
    population of a nested object ends with [pauser.onNext(true)]: when the
    provisional root, which has a subscriber, is finalized with
    [{a: {x: 1}, b: 2}], the gate is open again as soon as the child [a] is
    built, the registry [{a}] is combined and published, and the subscriber
    receives a mapping with one of the two declared children before it
    receives the full one. *)
Lemma nested_population_publishes_partial_mapping :
  let partial := VObj [("a"%string, VObj [("x"%string, VNum 1)])] in
  let full := VObj [("a"%string, VObj [("x"%string, VNum 1)]);
                    ("b"%string, VNum 2)] in
  let paused := fst (pauser_onNext false Samples.watchedRoot) in
  let afterA :=
    fst (addChildrenSubject_onNext
           0 (Event "a"%string (VObj [("x"%string, VNum 1)]) false) paused) in
  let result := createTree full false (Some 0) [] Samples.watchedRoot in
  pauser paused = false /\
  pauser afterA = true /\
  received afterA 0 0 = [partial] /\
  snd result = Ok 0 /\
  received (fst result) 0 0 = [partial; full].
Proof. repeat split. Qed.

(** With leaves only, the declaration is atomic for the subscriber: the
    gate stays closed until the last key is in. *)
Lemma flat_population_publishes_once :
  let full := VObj [("a"%string, VNum 1); ("b"%string, VNum 2)] in
  let result := createTree full false (Some 0) [] Samples.watchedRoot in
  snd result = Ok 0 /\ received (fst result) 0 0 = [full].
Proof. repeat split. Qed.

(** * Further properties *)

(** ** The display state of the TodoMVC example *)





Lemma filter_all {A} (P : A -> bool) l :
  (forall x, P x = true) -> List.filter P l = l.
Proof.
  intros H. induction l as [|x l IH]; simpl; [done|]. by rewrite H, IH.
Qed.




(** X2: a filter that is neither the active nor the completed one, the
    show-all filter or any unknown name, shows every todo. *)
Theorem filteredTodos_other_filter_shows_all fs todos filter :
  filter <> Display.SHOW_ACTIVE fs ->
  filter <> Display.SHOW_COMPLETED fs ->
  Display.filteredTodos fs todos filter = todos.
Proof.
  intros Ha Hc. apply filter_all. intros todo.
  unfold Display.createFilteredTodos.
  destruct (String.eqb_spec filter (Display.SHOW_ACTIVE fs)); [done|].
  destruct (String.eqb_spec filter (Display.SHOW_COMPLETED fs)); done.
Qed.

Lemma filteredTodos_other_filter_shows_all_witness :
  let fs := Display.Filters "show_all" "show_active" "show_completed" in
  let todos := [VObj [("completed"%string, VBool true)]; VNull] in
  Display.filteredTodos fs todos (Display.SHOW_ALL fs) = todos.
Proof.
  intros fs todos.
  apply (filteredTodos_other_filter_shows_all fs todos); discriminate.
Defined.




(** ** Combinators *)





Section Respects.
Context (R : relation store) `{!PreOrder R}.

Lemma respects_ret {A} (a : A) : respects R (ret a).
Proof. intros st. reflexivity. Qed.

Lemma respects_throw {A} e : respects R (@throw A e).
Proof. intros st. reflexivity. Qed.

Lemma respects_modify g : (forall st, R st (g st)) -> respects R (modify g).
Proof. intros H st. apply H. Qed.

Lemma respects_bind {A B} (m : M A) (f : A -> M B) :
  respects R m -> (forall a, respects R (f a)) -> respects R (bind m f).
Proof.
  intros Hm Hf st. unfold bind. specialize (Hm st).
  destruct (m st) as [s1 [a|e]]; simpl in *; [|done].
  etransitivity; [exact Hm | apply Hf].
Qed.

Lemma respects_forEach {A} (f : A -> M unit) l :
  (forall x, x ∈ l -> respects R (f x)) -> respects R (forEach f l).
Proof.
  induction l as [|x l IH]; intros Hf; simpl; [apply respects_ret|].
  apply respects_bind; [apply Hf; by left|]. intros _.
  apply IH. intros y Hy. apply Hf. by right.
Qed.

Lemma fold_left_respects {A} (f : store -> A -> store) l :
  (forall s x, R s (f s x)) -> forall st, R st (fold_left f l st).
Proof.
  intros Hf. induction l as [|x l IH]; intros st; simpl; [reflexivity|].
  etransitivity; [apply Hf | apply IH].
Qed.
End Respects.

Lemma keeps_ret {A} I (a : A) : keeps I (ret a).
Proof. by intros st. Qed.

Lemma keeps_modify I g : (forall st, I st -> I (g st)) -> keeps I (modify g).
Proof. intros H st. apply H. Qed.

Lemma keeps_bind {A B} I (m : M A) (f : A -> M B) :
  keeps I m -> (forall a, keeps I (f a)) -> keeps I (bind m f).
Proof.
  intros Hm Hf st HI. unfold bind. specialize (Hm st HI).
  destruct (m st) as [s1 [a|e]]; simpl in *; [|done]. by apply Hf.
Qed.

Lemma keeps_forEach {A} I (f : A -> M unit) l :
  (forall x, x ∈ l -> keeps I (f x)) -> keeps I (forEach f l).
Proof.
  induction l as [|x l IH]; intros Hf; simpl; [apply keeps_ret|].
  apply keeps_bind; [apply Hf; by left|]. intros _.
  apply IH. intros y Hy. apply Hf. by right.
Qed.

(** ** The errors of the construction side *)







(** ** An assignment changes values only *)

#[local] Instance same_frame_preorder : PreOrder same_frame.
Proof.
  split.
  - by intros st.
  - intros s1 s2 s3 (H1 & H2 & H3) (H4 & H5 & H6).
    unfold same_frame. by rewrite H4, H1, H5, H2, H6, H3.
Qed.

Lemma same_frame_updCell f id st :
  (forall c, frame (f c) = frame c) -> same_frame st (updCell f id st).
Proof.
  intros Hf. split; [|done]. unfold updCell. simpl.
  apply list_eq. intros i. rewrite !list_lookup_fmap.
  destruct (decide (id = i)) as [->|Hne].
  - rewrite list_lookup_alter_eq. destruct (cells st !! i); simpl; [|done].
    by rewrite Hf.
  - by rewrite list_lookup_alter_ne.
Qed.

Lemma valueSubject_onNext_same_frame id v st :
  same_frame st (valueSubject_onNext id v st).
Proof.
  apply same_frame_updCell. intros c. unfold frame. simpl.
  by rewrite length_map.
Qed.

Lemma propagate_same_frame chain :
  forall child st, same_frame st (propagate chain child st).
Proof.
  induction chain as [|p chain IH]; intros child st; simpl; [done|].
  destruct (listening st p child); [|done].
  destruct (createTreeObservable st p); [|done].
  etransitivity; [apply valueSubject_onNext_same_frame | apply IH].
Qed.

Lemma publish_same_frame id st : same_frame st (publish id st).
Proof.
  unfold publish. destruct (createTreeObservable st id); [|done].
  etransitivity; [apply valueSubject_onNext_same_frame|].
  apply propagate_same_frame.
Qed.

Lemma leaf_setNextState_same_frame id v :
  respects same_frame (leaf_setNextState id v).
Proof.
  apply respects_modify. intros st.
  destruct (getCell st id) as [c|] eqn:Hc; [|done].
  assert (H1 : same_frame st
            (updCell (set_streams (subject c ++ [v])
                        (map (distinctUntilChanged v) (observers c))) id st)).
  { unfold same_frame, updCell. simpl. split; [|done].
    apply list_eq. intros i. rewrite !list_lookup_fmap.
    destruct (decide (id = i)) as [->|Hne].
    - rewrite list_lookup_alter_eq. unfold getCell in Hc. rewrite Hc.
      simpl. unfold frame. simpl. by rewrite length_map.
    - by rewrite list_lookup_alter_ne. }
  destruct (last (subject c)) as [old|].
  - destruct (value_eqb old v); [done|].
    etransitivity; [exact H1 | apply propagate_same_frame].
  - etransitivity; [exact H1 | apply propagate_same_frame].
Qed.

Lemma setNextState_same_frame v :
  forall id, respects same_frame (setNextState v id).
Proof.
  induction v as [| | | | |fs IH] using value_ind_nested; intros id st;
    rewrite setNextState_unfold;
    (destruct (getCell st id) as [c|] eqn:Hc; [|done]);
    (destruct (c_kind c) eqn:Hk; [apply leaf_setNextState_same_frame|]);
    (destruct (emitted c); [|done]);
    (destruct (objectKeys _); [|done]);
    (destruct (negb _); [done|]);
    apply (respects_forEach same_frame); intros [k child] _;
    unfold assignChild; try apply (respects_throw same_frame).
  simpl. destruct (lookupKey k fs) as [sub|] eqn:Hsub;
    [|apply (respects_throw same_frame)].
  apply lookupKey_Some in Hsub. rewrite Forall_forall in IH.
  apply (IH _ Hsub).
Qed.

(** X6: an assignment changes values and nothing else.  Whether it
    succeeds or fails, [setNextState] leaves every node with its kind, its
    provisional flag, its registry, its place, its connection and its
    subscribers, creates no node, and leaves the pause gate alone; and
    its only errors are the shape error and the runtime's type error. *)
Theorem setNextState_changes_values_only newState id st :
  same_frame st (fst (setNextState newState id st)) /\
  length (cells (fst (setNextState newState id st))) = length (cells st) /\
  forall e, snd (setNextState newState id st) = Throw e ->
            e = ShapeError \/ e = TypeError.
Proof.
  pose proof (setNextState_same_frame newState id st) as H.
  split; [done|]. split.
  - destruct H as (H & _). apply (f_equal length) in H.
    by rewrite !length_map in H.
  - intros e He. destruct (setNextState newState id st) as [st' r] eqn:Hrun.
    simpl in He. subst r. by apply (setNextState_errors _ _ _ _ _ Hrun).
Qed.

(** ** The pause gate and the connections *)

Lemma same_frame_getCell st st' id c' :
  same_frame st st' -> getCell st' id = Some c' ->
  exists c, getCell st id = Some c /\ frame c = frame c'.
Proof.
  intros (Hf & _) Hc'. unfold getCell in *.
  assert (H : map frame (cells st) !! id = Some (frame c')).
  { rewrite <- Hf, list_lookup_fmap, Hc'. done. }
  rewrite list_lookup_fmap in H.
  destruct (cells st !! id) as [c|]; [|done].
  exists c. split; [done|]. simpl in H. congruence.
Qed.

Lemma same_frame_length st st' :
  same_frame st st' -> length (cells st') = length (cells st).
Proof.
  intros (Hf & _). apply (f_equal length) in Hf. by rewrite !length_map in Hf.
Qed.

Lemma same_frame_gate_ok st st' : same_frame st st' -> gate_ok st -> gate_ok st'.
Proof.
  intros Hsf [Hin Hconn]. pose proof Hsf as (_ & Hp & Hps). split.
  - intros id Hid. rewrite Hps in Hid.
    rewrite (same_frame_length _ _ Hsf). by apply Hin.
  - intros id c' Hc'.
    destruct (same_frame_getCell _ _ _ _ Hsf Hc') as (c & Hc & Hfr).
    rewrite Hp, Hps, <- (Hconn id c Hc). unfold frame in Hfr. congruence.
Qed.

(** A change that leaves connections, gate and list of pipelines alone. *)
Lemma gate_ok_updCell f id st :
  (forall c, connected (f c) = connected c) ->
  gate_ok st -> gate_ok (updCell f id st).
Proof.
  intros Hf [Hin Hconn]. split.
  - intros i Hi. unfold updCell. simpl. rewrite length_alter. by apply Hin.
  - intros i c' Hc'. unfold getCell, updCell in *. simpl in *.
    destruct (decide (id = i)) as [->|Hne].
    + rewrite list_lookup_alter_eq in Hc'.
      destruct (cells st !! i) as [c|] eqn:Hc; [|done].
      injection Hc' as <-. rewrite Hf. by apply Hconn.
    + rewrite list_lookup_alter_ne in Hc' by done. by apply Hconn.
Qed.

Lemma gate_ok_alloc c st :
  connected c = false ->
  gate_ok st -> gate_ok (Store (cells st ++ [c]) (pauser st) (pausables st)).
Proof.
  intros Hc [Hin Hconn]. split; simpl.
  - intros i Hi. rewrite length_app. specialize (Hin i Hi). lia.
  - intros i c' Hc'. unfold getCell in *. simpl in *.
    destruct (decide (i < length (cells st))) as [Hlt|Hge].
    + rewrite lookup_app_l in Hc' by done. by apply Hconn.
    + rewrite lookup_app_r in Hc' by lia.
      destruct (i - length (cells st)) as [|n] eqn:E; simpl in Hc'; [|done].
      injection Hc' as <-. rewrite Hc.
      rewrite bool_decide_eq_false_2; [by rewrite andb_false_r|].
      intros Hi. specialize (Hin i Hi). lia.
Qed.

Lemma connections_set_fold b (g : nat -> store -> store) l :
  (forall id s, same_frame s (g id s)) ->
  forall st,
    connections_set b l st
      (fold_left (fun s id => g id (updCell (set_connected b) id s)) l st).
Proof.
  intros Hg. induction l as [|x l IH]; intros st; simpl.
  - repeat split; auto. intros id c' Hc'. exists c'.
    rewrite bool_decide_eq_false_2; [done|]. apply not_elem_of_nil.
  - set (s1 := g x (updCell (set_connected b) x st)).
    destruct (IH s1) as (Hp & Hps & Hlen & Hc).
    pose proof (Hg x (updCell (set_connected b) x st)) as Hsf. fold s1 in Hsf.
    pose proof Hsf as (_ & Hp1 & Hps1).
    pose proof (same_frame_length _ _ Hsf) as Hl1.
    split; [by rewrite Hp, Hp1|]. split; [by rewrite Hps, Hps1|].
    split; [rewrite Hlen, Hl1; unfold updCell; simpl; apply length_alter|].
    intros id c' Hc'. destruct (Hc id c' Hc') as (c1 & Hc1 & Hcon).
    destruct (same_frame_getCell _ _ _ _ Hsf Hc1) as (c0 & Hc0 & Hfr).
    assert (Hcon1 : connected c1 = connected c0)
      by (unfold frame in Hfr; congruence).
    unfold getCell, updCell in Hc0. simpl in Hc0.
    destruct (decide (x = id)) as [->|Hne].
    + rewrite list_lookup_alter_eq in Hc0.
      destruct (cells st !! id) as [c|] eqn:Hcst; [|done].
      injection Hc0 as <-. exists c. split; [done|].
      rewrite (bool_decide_eq_true_2 (id ∈ id :: l)) by (by left).
      rewrite Hcon. destruct (bool_decide (id ∈ l)); [done|].
      by rewrite Hcon1.
    + rewrite list_lookup_alter_ne in Hc0 by done.
      exists c0. split; [done|]. rewrite Hcon.
      destruct (bool_decide (id ∈ l)) eqn:E.
      * apply bool_decide_eq_true_1 in E.
        by rewrite (bool_decide_eq_true_2 (id ∈ x :: l)) by (by right).
      * apply bool_decide_eq_false_1 in E.
        rewrite (bool_decide_eq_false_2 (id ∈ x :: l)); [done|].
        intros Hin. apply elem_of_cons in Hin as [->|Hin]; done.
Qed.

Lemma pauser_onNext_gate_ok b : keeps gate_ok (pauser_onNext b).
Proof.
  apply keeps_modify. intros st [Hin Hconn].
  destruct (Bool.eqb b (pauser st)) eqn:Hb; [done|].
  assert (Hneq : pauser st = negb b).
  { destruct b, (pauser st); simpl in Hb; done. }
  assert (Hset : connections_set b (pausables st)
                   (Store (cells st) b (pausables st))
                   (if b
                    then fold_left (fun s id =>
                           publish id (updCell (set_connected true) id s))
                           (pausables st) (Store (cells st) true (pausables st))
                    else fold_left (fun s id =>
                           updCell (set_connected false) id s)
                           (pausables st) (Store (cells st) false (pausables st)))).
  { destruct b.
    - apply (connections_set_fold true publish). apply publish_same_frame.
    - apply (connections_set_fold false (fun _ s => s)). by intros. }
  destruct Hset as (Hp & Hps & Hlen & Hc). simpl in Hp, Hps, Hlen.
  split.
  - intros id Hid. rewrite Hps in Hid. rewrite Hlen. by apply Hin.
  - intros id c' Hc'. destruct (Hc id c' Hc') as (c & Hcst & Hcon).
    rewrite Hp, Hps, Hcon. specialize (Hconn id c Hcst).
    rewrite Hneq in Hconn. destruct (bool_decide (id ∈ pausables st)).
    + by rewrite andb_true_r.
    + rewrite andb_false_r in *. done.
Qed.

Lemma valueObservable_subscribe_gate_ok self st :
  self < length (cells st) ->
  gate_ok st -> gate_ok (fst (valueObservable_subscribe self st)).
Proof.
  intros Hself [Hin Hconn]. unfold valueObservable_subscribe, modify. simpl.
  set (st1 := Store (cells st) (pauser st) (pausables st ++ [self])).
  destruct (pauser st) eqn:Hp.
  - apply (same_frame_gate_ok (updCell (set_connected true) self st1));
      [apply publish_same_frame|].
    split.
    + intros id Hid. unfold updCell, st1 in *. simpl in *.
      rewrite length_alter. apply elem_of_app in Hid as [Hid|Hid]; [by apply Hin|].
      apply list_elem_of_singleton in Hid as ->. done.
    + intros id c' Hc'. unfold getCell, updCell, st1 in *. simpl in *.
      destruct (decide (self = id)) as [->|Hne].
      * rewrite list_lookup_alter_eq in Hc'.
        destruct (cells st !! id) as [c|]; [|done]. injection Hc' as <-.
        simpl. rewrite bool_decide_eq_true_2; [done|].
        apply elem_of_app. right. by left.
      * rewrite list_lookup_alter_ne in Hc' by done.
        rewrite (Hconn id c' Hc').
        apply bool_decide_ext. rewrite elem_of_app, list_elem_of_singleton.
        split; [by left | intros [H|H]; [done | congruence]].
  - split.
    + intros id Hid. simpl in *.
      apply elem_of_app in Hid as [Hid|Hid]; [by apply Hin|].
      apply list_elem_of_singleton in Hid as ->. done.
    + intros id c' Hc'. simpl. simpl in Hc'.
      by rewrite (Hconn id c' Hc').
Qed.

Lemma createNode_gate_ok plumbing b : keeps gate_ok (createNode plumbing b).
Proof.
  apply keeps_bind; [|intros; apply keeps_ret].
  apply keeps_modify. intros st. by apply gate_ok_updCell.
Qed.

Lemma childrenObservable_onNext_gate_ok self reg :
  keeps gate_ok (childrenObservable_onNext self reg).
Proof.
  apply keeps_modify. intros st HG. cbv zeta.
  assert (H1 : gate_ok (updCell (set_children reg) self st))
    by (by apply gate_ok_updCell).
  destruct (getCell (updCell (set_children reg) self st) self) as [c|];
    [|done].
  destruct (connected c); [|done].
  by apply (same_frame_gate_ok _ _ (publish_same_frame _ _)).
Qed.

Lemma createChildrenObservable_gate_ok create self child :
  (forall b pn chain, keeps gate_ok (create (value_of child) b pn chain)) ->
  keeps gate_ok (createChildrenObservable create self child).
Proof.
  intros Hc st. unfold createChildrenObservable.
  destruct (negb _ || _).
  - apply (keeps_bind gate_ok (create _ _ _ _)); [apply Hc|].
    intros a. apply childrenObservable_onNext_gate_ok.
  - destruct (negb _); [done|]. apply childrenObservable_onNext_gate_ok.
Qed.

Lemma updateAddChildrenSubject_gate_ok fields onNext :
  (forall kv, kv ∈ fields ->
     keeps gate_ok (onNext (Event (fst kv) (snd kv) false))) ->
  keeps gate_ok (updateAddChildrenSubject fields onNext).
Proof.
  intros H. unfold updateAddChildrenSubject.
  apply keeps_bind; [apply pauser_onNext_gate_ok|]. intros _.
  apply keeps_bind; [|intros _; apply pauser_onNext_gate_ok].
  by apply keeps_forEach.
Qed.

Lemma steps_length st st' : steps st st' -> length (cells st) <= length (cells st').
Proof.
  intros Hs.
  destruct (decide (length (cells st) = 0)) as [->|Hne]; [lia|].
  destruct (lookup_lt_is_Some_2 (cells st) (pred (length (cells st))))
    as [c Hc]; [lia|].
  destruct (steps_getCell st st' _ c Hs Hc) as (c' & Hc' & _).
  apply lookup_lt_Some in Hc'. lia.
Qed.

Lemma createInitialTree_gate_ok populate b chain :
  (forall self, keeps gate_ok (populate self)) ->
  (forall self, stepwise (populate self)) ->
  keeps gate_ok (createInitialTree populate b chain).
Proof.
  intros Hk Hs st HG. unfold createInitialTree, bind, alloc.
  set (c0 := Cell KTree b [] false false [] [] chain).
  set (st0 := Store (cells st ++ [c0]) (pauser st) (pausables st)).
  assert (HG0 : gate_ok st0) by (by apply gate_ok_alloc).
  assert (Hpop : gate_ok (fst ((if negb b then populate (length (cells st))
                                else ret tt) st0)) /\
                 length (cells st0)
                 <= length (cells (fst ((if negb b
                                          then populate (length (cells st))
                                          else ret tt) st0)))).
  { destruct (negb b).
    - split; [by apply Hk | apply steps_length, Hs].
    - by split. }
  destruct ((if negb b then populate (length (cells st)) else ret tt) st0)
    as [st1 [[]|e]]; simpl in *; [|by destruct Hpop].
  destruct Hpop as [HG1 Hlen]. unfold st0 in Hlen. simpl in Hlen.
  rewrite length_app in Hlen. simpl in Hlen.
  apply createNode_gate_ok. apply valueObservable_subscribe_gate_ok; [lia|done].
Qed.

Lemma createLeaf_gate_ok v pn chain : keeps gate_ok (createLeaf v pn chain).
Proof.
  intros st HG. unfold createLeaf. destruct (negb _); [done|].
  unfold bind, alloc. simpl.
  apply createNode_gate_ok. by apply gate_ok_alloc.
Qed.

Lemma createTree_gate_ok v :
  forall b pn chain, keeps gate_ok (createTree v b pn chain).
Proof.
  induction v as [| | | | |fs IH] using value_ind_nested;
    intros prov pn chain; simpl;
    try (destruct (negb prov); [apply createLeaf_gate_ok|]);
    try (apply createInitialTree_gate_ok; intros;
         [apply keeps_ret | apply stepwise_ret]).
  rewrite Forall_forall in IH.
  assert (Hev : forall self kv, kv ∈ fs ->
            keeps gate_ok (createChildrenObservable createTree self
                             (Event (fst kv) (snd kv) false))).
  { intros self kv Hkv. apply createChildrenObservable_gate_ok. simpl.
    intros. by apply IH. }
  assert (Hst : forall self kv, kv ∈ fs ->
            stepwise (createChildrenObservable createTree self
                        (Event (fst kv) (snd kv) false))).
  { intros self kv Hkv. apply createChildrenObservable_stepwise.
    intros. apply createTree_stepwise. }
  destruct (negb prov), pn as [p|];
    try (apply createInitialTree_gate_ok; intros self;
         [apply updateAddChildrenSubject_gate_ok
         |apply updateAddChildrenSubject_stepwise]; auto).
  unfold createFinalTreeFromProvisionalNode.
  apply keeps_bind; [|intros _; apply createNode_gate_ok].
  apply updateAddChildrenSubject_gate_ok; auto.
Qed.

Lemma subscribe_gate_ok id : keeps gate_ok (subscribe id).
Proof.
  intros st HG. unfold subscribe.
  destruct (getCell st id) as [c|]; [|done]. simpl.
  by apply gate_ok_updCell.
Qed.

Lemma connections_follow_the_gate_lemma st :
  evolves empty_store st -> gate_ok st.
Proof.
  revert st. unfold evolves.
  apply (rtc_ind_r (fun st => gate_ok st)).
  - split; [intros id Hid; by apply elem_of_nil in Hid|].
    intros id c Hc. by destruct id.
  - intros st1 st2 _ Hop HG.
    destruct Hop as [s v b pn chain | s self child | s v id | s id].
    + by apply createTree_gate_ok.
    + apply createChildrenObservable_gate_ok; [|done].
      intros. apply createTree_gate_ok.
    + apply (same_frame_gate_ok s); [apply setNextState_same_frame | done].
    + by apply subscribe_gate_ok.
Qed.

(** X7: the connections follow the gate.  In every store that operations
    lead to from the empty one, the pipelines subscribed to the pauser are
    nodes of the tree, and a node's pipeline is connected exactly when
    the gate is open and the pipeline has subscribed: closing the gate
    disconnects all of them, opening it reconnects all of them. *)
Theorem connections_follow_the_gate st :
  evolves empty_store st -> gate_ok st.
Proof. apply connections_follow_the_gate_lemma. Qed.


Lemma connections_follow_the_gate_witness : gate_ok Samples.nestedRoot.
Proof.
  apply connections_follow_the_gate. apply rtc_once.
  apply (op_createTree empty_store
           (VObj [("a"%string, VObj [("x"%string, VNum 1)]);
                  ("b"%string, VNum 2)]) false None []).
Defined.

(** ** Assignments while the gate is closed *)

Lemma propagate_disconnected chain :
  forall child st, all_disconnected st -> propagate chain child st = st.
Proof.
  destruct chain as [|p chain]; intros child st HD; simpl; [done|].
  unfold listening. destruct (getCell st p) as [c|] eqn:Hc; [|done].
  by rewrite (HD p c Hc).
Qed.

Lemma all_disconnected_updCell f id st :
  (forall c, connected (f c) = connected c) ->
  all_disconnected st -> all_disconnected (updCell f id st).
Proof.
  intros Hf HD i c' Hc'. unfold getCell, updCell in *. simpl in *.
  destruct (decide (id = i)) as [->|Hne].
  - rewrite list_lookup_alter_eq in Hc'.
    destruct (cells st !! i) as [c|] eqn:Hc; [|done].
    injection Hc' as <-. rewrite Hf. by apply (HD i).
  - rewrite list_lookup_alter_ne in Hc' by done. by apply (HD i).
Qed.

Lemma leaf_setNextState_disconnected st id c v :
  getCell st id = Some c -> c_kind c = KLeaf -> all_disconnected st ->
  let st' := fst (leaf_setNextState id v st) in
  all_disconnected st' /\ branches_untouched st st' /\
  latestValue st' id = Some v.
Proof.
  intros Hc Hk HD. unfold leaf_setNextState, modify. simpl. rewrite Hc.
  set (st1 := updCell (set_streams (subject c ++ [v])
                (map (distinctUntilChanged v) (observers c))) id st).
  assert (HD1 : all_disconnected st1) by (by apply all_disconnected_updCell).
  assert (Hsame : (match last (subject c) with
                   | Some old => if value_eqb old v then st1
                                 else propagate (upstream c) id st1
                   | None => propagate (upstream c) id st1
                   end) = st1).
  { destruct (last (subject c)) as [old|];
      [destruct (value_eqb old v)|]; try done;
      by apply propagate_disconnected. }
  rewrite Hsame. split; [done|]. split.
  - intros j cj Hcj Hkj. unfold st1.
    rewrite updCell_getCell_ne; [done|]. intros ->. congruence.
  - unfold latestValue, st1. rewrite (updCell_getCell _ _ _ _ Hc). simpl.
    apply last_snoc.
Qed.

Lemma forEach_disconnected {A} (f : A -> M unit) l :
  (forall x st, x ∈ l -> all_disconnected st ->
     all_disconnected (fst (f x st)) /\ branches_untouched st (fst (f x st))) ->
  forall st, all_disconnected st ->
    all_disconnected (fst (forEach f l st)) /\
    branches_untouched st (fst (forEach f l st)).
Proof.
  induction l as [|x l IH]; intros Hf st HD; simpl.
  - split; [done | by intros id c].
  - unfold bind. destruct (Hf x st) as [HD1 Hb1]; [by left | done |].
    destruct (f x st) as [s1 [[]|e]]; simpl in *; [|done].
    destruct (IH (fun y s Hy => Hf y s (list_elem_of_further _ _ _ Hy)) s1 HD1)
      as [HD2 Hb2].
    split; [done|]. intros id c Hc Hk. apply Hb2; [by apply Hb1 | done].
Qed.

Lemma setNextState_disconnected v :
  forall id st, all_disconnected st ->
    all_disconnected (fst (setNextState v id st)) /\
    branches_untouched st (fst (setNextState v id st)).
Proof.
  assert (Hrefl : forall st, all_disconnected st ->
            all_disconnected st /\ branches_untouched st st)
    by (intros st HD; split; [done | by intros id c]).
  induction v as [| | | | |fs IH] using value_ind_nested; intros id st HD;
    rewrite setNextState_unfold;
    (destruct (getCell st id) as [c|] eqn:Hc; [|by apply Hrefl]);
    (destruct (c_kind c) eqn:Hk;
       [match goal with
        | |- context [leaf_setNextState id ?w st] =>
            destruct (leaf_setNextState_disconnected st id c w Hc Hk HD)
              as (H1 & H2 & _)
        end; by split|]);
    (destruct (emitted c); [|by apply Hrefl]);
    (destruct (objectKeys _); [|by apply Hrefl]);
    (destruct (negb _); [by apply Hrefl|]);
    (apply forEach_disconnected; [|done]); intros [k child] s1 _ HDs;
    unfold assignChild; try (by apply Hrefl).
  simpl. destruct (lookupKey k fs) as [sub|] eqn:Hsub; [|by apply Hrefl].
  apply lookupKey_Some in Hsub. rewrite Forall_forall in IH.
  by apply (IH _ Hsub).
Qed.

(** X8: while the gate is closed, an assignment reaches the leaves and no
    branch publishes.  In a store that operations lead to, with the pauser
    at [false], [setNextState] leaves every branch exactly as it was,
    whether it succeeds or fails, and a leaf that is assigned directly
    holds the new value. *)
Theorem paused_assignment_reaches_leaves_only st newState id :
  evolves empty_store st ->
  pauser st = false ->
  let st' := fst (setNextState newState id st) in
  branches_untouched st st' /\
  (forall c, getCell st id = Some c -> c_kind c = KLeaf ->
             latestValue st' id = Some newState).
Proof.
  intros Hev Hp st'.
  assert (HD : all_disconnected st).
  { destruct (connections_follow_the_gate_lemma st Hev) as [_ Hconn].
    intros j c Hc. rewrite (Hconn j c Hc), Hp. done. }
  split; [by apply setNextState_disconnected|].
  intros c Hc Hk. unfold st'. rewrite setNextState_unfold, Hc, Hk.
  by apply (leaf_setNextState_disconnected st id c).
Qed.

Lemma paused_assignment_reaches_leaves_only_witness :
  let newState := VObj [("a"%string, VNum 10); ("b"%string, VNum 20)] in
  branches_untouched Samples.pausedFlat
    (fst (setNextState newState 0 Samples.pausedFlat)).
Proof.
  intros newState.
  apply (paused_assignment_reaches_leaves_only Samples.pausedFlat newState 0);
    [|reflexivity].
  eapply rtc_l;
    [apply (op_createTree empty_store
              (VObj [("a"%string, VNum 1); ("b"%string, VNum 2)])
              false None [])|].
  apply rtc_once.
  apply (op_createTree Samples.flatRoot (VObj [("a"%string, VNum 5)])
                       false (Some 0) []).
Defined.

(** ** Final nodes stay final *)

#[local] Instance final_kept_preorder : PreOrder final_kept.
Proof.
  split.
  - intros st id c Hc Hp. eauto.
  - intros s1 s2 s3 H12 H23 id c Hc Hp.
    destruct (H12 id c Hc Hp) as (c2 & Hc2 & Hp2). by apply (H23 id c2).
Qed.














(** ** What a subscriber of a leaf receives *)

Lemma no_repeat_snoc l v :
  no_repeat l -> last l <> Some v -> no_repeat (l ++ [v]).
Proof.
  induction l as [|x [|y l] IH]; simpl; intros Hl Hv; [done| |].
  - split; [congruence | done].
  - destruct Hl as [Hxy Hl]. split; [done|]. by apply IH.
Qed.

Lemma no_repeat_distinctUntilChanged v l :
  no_repeat l -> no_repeat (distinctUntilChanged v l).
Proof.
  intros Hl. unfold distinctUntilChanged.
  destruct (last l) as [w|] eqn:Hw.
  - destruct (value_eqb w v) eqn:E; [done|].
    apply no_repeat_snoc; [done|]. rewrite Hw. intros [= ->].
    by rewrite value_eqb_refl in E.
  - apply no_repeat_snoc; [done|]. by rewrite Hw.
Qed.

Lemma no_repeat_reachable st :
  steps empty_store st ->
  forall id c o seen,
    getCell st id = Some c -> c_kind c = KLeaf ->
    observers c !! o = Some seen -> no_repeat seen.
Proof.
  revert st. unfold steps.
  apply (rtc_ind_r (fun st => forall id c o seen,
           getCell st id = Some c -> c_kind c = KLeaf ->
           observers c !! o = Some seen -> no_repeat seen)).
  - intros id c o seen Hc. by destruct id.
  - intros st1 st2 _ Hstep IH id c2 o seen Hc2 Hk2 Ho.
    destruct Hstep as
      [st c Hobs Hs | st id' v Hv | st id' c0 v Hc0 Hk0 | st id' f Hf | st b ps
      | st id' c0 Hc0].
    + unfold getCell in *. simpl in Hc2.
      destruct (decide (id < length (cells st))) as [Hlt|Hge].
      * rewrite lookup_app_l in Hc2 by done. by apply (IH id c2 o).
      * rewrite lookup_app_r in Hc2 by lia.
        destruct (id - length (cells st)) as [|n]; simpl in Hc2; [|done].
        injection Hc2 as <-. by rewrite Hobs in Ho.
    + unfold valueSubject_onNext in Hc2.
      destruct (decide (id' = id)) as [->|Hne].
      * destruct (createTreeObservable_kind _ _ _ Hv) as (c1 & Hc1 & Hk1).
        rewrite (updCell_getCell _ _ _ _ Hc1) in Hc2. injection Hc2 as <-.
        simpl in Hk2. congruence.
      * rewrite updCell_getCell_ne in Hc2 by done. by apply (IH id c2 o).
    + destruct (decide (id' = id)) as [->|Hne].
      * rewrite (updCell_getCell _ _ _ _ Hc0) in Hc2. injection Hc2 as <-.
        simpl in Ho. rewrite list_lookup_fmap in Ho.
        destruct (observers c0 !! o) as [seen0|] eqn:Ho0; [|done].
        injection Ho as <-. apply no_repeat_distinctUntilChanged.
        by apply (IH id c0 o).
      * rewrite updCell_getCell_ne in Hc2 by done. by apply (IH id c2 o).
    + destruct (decide (id' = id)) as [->|Hne].
      * unfold getCell, updCell in *. simpl in Hc2.
        rewrite list_lookup_alter_eq in Hc2.
        destruct (cells st !! id) as [c1|] eqn:Hc1; [|done].
        injection Hc2 as <-. destruct (Hf c1) as (Hk & _ & Hobs & _).
        rewrite Hobs in Ho. apply (IH id c1 o); [done | congruence | done].
      * rewrite updCell_getCell_ne in Hc2 by done. by apply (IH id c2 o).
    + by apply (IH id c2 o).
    + destruct (decide (id' = id)) as [->|Hne].
      * rewrite (updCell_getCell _ _ _ _ Hc0) in Hc2. injection Hc2 as <-.
        simpl in Ho, Hk2.
        destruct (decide (o < length (observers c0))) as [Hlt|Hge].
        -- rewrite lookup_app_l in Ho by done. by apply (IH id c0 o).
        -- rewrite lookup_app_r in Ho by lia.
           destruct (o - length (observers c0)) as [|n]; simpl in Ho; [|done].
           injection Ho as <-. by destruct (last (subject c0)).
      * rewrite updCell_getCell_ne in Hc2 by done. by apply (IH id c2 o).
Qed.

(** X10: a subscriber of a leaf never receives the same value twice in a
    row, whatever operations the tree goes through: each value it holds
    differs from the one before. *)
Theorem leaf_subscriber_never_sees_a_repeat st id c o :
  evolves empty_store st ->
  getCell st id = Some c ->
  c_kind c = KLeaf ->
  o < length (observers c) ->
  no_repeat (received st id o).
Proof.
  intros Hev Hc Hk Ho.
  destruct (lookup_lt_is_Some_2 _ _ Ho) as [seen Hseen].
  unfold received. rewrite Hc, Hseen. simpl.
  by apply (no_repeat_reachable st (evolves_steps _ _ Hev) id c o).
Qed.

Lemma leaf_subscriber_never_sees_a_repeat_witness :
  let st1 := fst (setNextState (VNum 5) 1 Samples.watchedLeaf) in
  let st2 := fst (setNextState (VNum 5) 1 st1) in
  no_repeat (received st2 1 0).
Proof.
  intros st1 st2.
  apply (leaf_subscriber_never_sees_a_repeat st2 1 (Samples.cellOf st2 1) 0);
    [|reflexivity|reflexivity|vm_compute; lia].
  eapply rtc_l;
    [apply (op_createTree empty_store
              (VObj [("a"%string, VNum 1); ("b"%string, VNum 2)])
              false None [])|].
  eapply rtc_l; [apply (op_subscribe Samples.flatRoot 1)|].
  eapply rtc_l; [apply (op_setNextState Samples.watchedLeaf (VNum 5) 1)|].
  apply rtc_once. apply (op_setNextState st1 (VNum 5) 1).
Defined.

(** ** The combined value, exactly *)




(** ** Forward references *)








(** ** Errors that do occur *)


(** ** A tree publishes the state it was created from *)


Lemma settled_obj st up fs id hi :
  settled st up (VObj fs) id hi <->
  Forall (fun a => a < id) up /\
  exists c,
    getCell st id = Some c /\ c_kind c = KTree /\
    provisional c = false /\ emitted c = true /\ upstream c = up /\
    id ∈ pausables st /\
    last (subject c) = Some (VObj fs) /\ fs <> [] /\ NoDup (map fst fs) /\
    children_settled (settled st (id :: up)) fs (children c) (S id) hi.
Proof.
  assert (Hk : forall fs reg next,
    (fix kids (fs : list (string * value)) (reg : list (string * nat))
         (next : nat) {struct fs} : Prop :=
       match fs, reg with
       | [], [] => next = hi
       | (k, sub) :: fs', (k', child) :: reg' =>
           k = k' /\ child = next /\
           exists h, settled st (id :: up) sub child h /\ kids fs' reg' h
       | _, _ => False
       end) fs reg next <->
    children_settled (settled st (id :: up)) fs reg next hi).
  { clear fs. induction fs as [|[k sub] fs IH]; intros [|[k' child] reg] next;
      simpl; try done.
    split; intros (-> & -> & h & Hs & Hr); (split; [done|]); (split; [done|]);
      exists h; (split; [done|]); by apply IH. }
  simpl. split.
  - intros (Hup & c & Hc & H1 & H2 & H3 & H4 & H5 & H6 & H7 & H8 & H9).
    split; [done|]. exists c. by rewrite <- Hk.
  - intros (Hup & c & Hc & H1 & H2 & H3 & H4 & H5 & H6 & H7 & H8 & H9).
    split; [done|]. exists c. by rewrite Hk.
Qed.

Lemma children_settled_le (P : value -> nat -> nat -> Prop) fs :
  Forall (fun kv => forall child h, P (snd kv) child h -> child < h) fs ->
  forall reg next hi, children_settled P fs reg next hi -> next <= hi.
Proof.
  induction fs as [|[k sub] fs IH]; intros Hr [|[k' child] reg] next hi;
    simpl; try done.
  - by intros ->.
  - apply Forall_cons in Hr as [Hsub Hr]. simpl in Hsub.
    intros (-> & -> & h & Hs & Hrest).
    apply Hsub in Hs. apply (IH Hr) in Hrest. lia.
Qed.

Lemma children_settled_impl (P Q : value -> nat -> nat -> Prop) fs :
  Forall (fun kv => forall child h, P (snd kv) child h -> child < h) fs ->
  forall reg next hi,
    Forall (fun kv => forall child h, next <= child -> h <= hi ->
                        P (snd kv) child h -> Q (snd kv) child h) fs ->
    children_settled P fs reg next hi -> children_settled Q fs reg next hi.
Proof.
  induction fs as [|[k sub] fs IH]; intros Hr [|[k' child] reg] next hi Hpq;
    simpl; try done.
  apply Forall_cons in Hr as [Hsub Hr]. simpl in Hsub.
  apply Forall_cons in Hpq as [Hpq_sub Hpq]. simpl in Hpq_sub.
  intros (-> & -> & h & Hs & Hrest).
  pose proof (Hsub _ _ Hs) as Hlt.
  pose proof (children_settled_le P fs Hr _ _ _ Hrest) as Hle.
  split; [done|]. split; [done|]. exists h. split.
  - apply Hpq_sub; [lia | lia | done].
  - apply IH; [done| |done].
    eapply Forall_impl; [exact Hpq|]. simpl.
    intros kv H child h' H1 H2. apply H; lia.
Qed.

Lemma children_settled_keys (P : value -> nat -> nat -> Prop) fs :
  forall reg next hi,
    children_settled P fs reg next hi -> map fst reg = map fst fs.
Proof.
  induction fs as [|[k sub] fs IH]; intros [|[k' child] reg] next hi;
    simpl; try done.
  intros (-> & -> & h & _ & Hrest). f_equal. by apply (IH _ _ _ Hrest).
Qed.

Lemma children_settled_snoc (P : value -> nat -> nat -> Prop) fs :
  forall reg next hi k sub h,
    children_settled P fs reg next hi -> P sub hi h ->
    children_settled P (fs ++ [(k, sub)]) (reg ++ [(k, hi)]) next h.
Proof.
  induction fs as [|[k0 sub0] fs IH]; intros [|[k' child] reg] next hi k sub h;
    simpl; try done.
  - intros -> Hs. split; [done|]. split; [done|]. by exists h.
  - intros (-> & -> & h0 & Hs0 & Hrest) Hs.
    split; [done|]. split; [done|]. exists h0. split; [done|].
    by apply IH.
Qed.

Lemma settled_range v :
  forall st up id hi, settled st up v id hi -> id < hi.
Proof.
  induction v as [| | | | |fs IH] using value_ind_nested; intros st up id hi.
  1: simpl; tauto.
  1-4: simpl; intros (_ & c & _ & _ & _ & _ & _ & ->); lia.
  rewrite settled_obj.
  intros (_ & c & _ & _ & _ & _ & _ & _ & _ & _ & _ & Hkids).
  apply children_settled_le in Hkids; [lia|].
  eapply Forall_impl; [exact IH|]. simpl. intros kv H child h. apply H.
Qed.

Lemma settled_ranges st up (fs : list (string * value)) :
  Forall (fun kv => forall child h, settled st up (snd kv) child h -> child < h)
         fs.
Proof. apply Forall_forall. intros kv _ child h. apply settled_range. Qed.

Lemma settled_up st up v id hi :
  settled st up v id hi -> Forall (fun a => a < id) up.
Proof. destruct v; simpl; tauto. Qed.

Lemma settled_latest st up v id hi :
  settled st up v id hi ->
  isProvisional st id = false /\ latestValue st id = Some v.
Proof.
  unfold isProvisional, latestValue.
  destruct v as [| | | | |fs].
  1: simpl; tauto.
  1-4: simpl; intros (_ & c & -> & _ & -> & _ & -> & _); done.
  rewrite settled_obj. intros (_ & c & -> & _ & -> & _ & _ & _ & -> & _). done.
Qed.

Lemma children_settled_latest st up fs :
  forall reg next hi,
    children_settled (settled st up) fs reg next hi ->
    latestNodes st reg = reg /\ latestValues st reg = Some fs.
Proof.
  unfold latestNodes.
  induction fs as [|[k sub] fs IH]; intros [|[k' child] reg] next hi;
    simpl; try done.
  intros (-> & -> & h & Hs & Hrest).
  apply settled_latest in Hs as [Hp Hl].
  destruct (IH _ _ _ Hrest) as [IH1 IH2].
  rewrite filter_cons_True by (simpl; by rewrite Hp).
  rewrite IH1. simpl. by rewrite Hl, IH2.
Qed.

Lemma combined_of_children st up id c fs next hi :
  getCell st id = Some c -> c_kind c = KTree -> emitted c = true ->
  fs <> [] ->
  children_settled (settled st up) fs (children c) next hi ->
  createTreeObservable st id = Some (VObj fs).
Proof.
  intros Hc Hk He Hne Hkids.
  unfold createTreeObservable. rewrite Hc, Hk, He.
  destruct (children_settled_latest _ _ _ _ _ _ Hkids) as [H1 H2].
  rewrite H1. destruct (children c) eqn:Hch.
  - destruct fs; [done | by simpl in Hkids].
  - by rewrite H2.
Qed.

Lemma settled_combined st up fs id hi :
  settled st up (VObj fs) id hi -> createTreeObservable st id = Some (VObj fs).
Proof.
  rewrite settled_obj.
  intros (_ & c & Hc & Hk & _ & He & _ & _ & _ & Hne & _ & Hkids).
  by apply (combined_of_children st (id :: up) id c fs (S id) hi).
Qed.

Lemma settled_transfer st st' v :
  (forall j, j ∈ pausables st -> j ∈ pausables st') ->
  forall up id hi,
    (forall j c, id <= j -> j < hi -> getCell st j = Some c ->
       exists c', getCell st' j = Some c' /\ skeleton c' = skeleton c /\
                  last (subject c') = last (subject c)) ->
    settled st up v id hi -> settled st' up v id hi.
Proof.
  intros Hps.
  induction v as [| | | | |fs IH] using value_ind_nested;
    intros up id hi Hsame.
  1: simpl; tauto.
  1-4: intros Hs; pose proof (settled_range _ _ _ _ _ Hs) as Hlt; revert Hs;
    simpl; intros (Hup & c & Hc & H1 & H2 & H3 & H4 & H5);
    destruct (Hsame id c (le_n _) Hlt Hc) as (c' & Hc' & Hsk & Hl);
    injection Hsk as E1 E2 E3 E4 E5;
    (split; [done|]); exists c'; repeat split; congruence.
  intros Hs. pose proof (settled_range _ _ _ _ _ Hs) as Hlt. revert Hs.
  rewrite !settled_obj.
  intros (Hup & c & Hc & H1 & H2 & H3 & H4 & H5 & H6 & H7 & H8 & Hkids).
  destruct (Hsame id c (le_n _) Hlt Hc) as (c' & Hc' & Hsk & Hl).
  injection Hsk as E1 E2 E3 E4 E5.
  split; [done|]. exists c'.
  repeat split; try congruence; [by apply Hps|].
  rewrite E3.
  apply (children_settled_impl (settled st (id :: up))); [|  |done].
  - apply settled_ranges.
  - eapply Forall_impl; [exact IH|]. simpl.
    intros kv H child h Hlo Hhi. apply H.
    intros j cj Hj1 Hj2. apply Hsame; lia.
Qed.














Lemma fold_left_pauser {A} (f : store -> A -> store) l :
  (forall s x, pauser (f s x) = pauser s) ->
  forall st, pauser (fold_left f l st) = pauser st.
Proof.
  intros Hf. induction l as [|x l IH]; intros st; simpl; [done|].
  by rewrite IH, Hf.
Qed.

Lemma pauser_onNext_true st : pauser (fst (pauser_onNext true st)) = true.
Proof.
  unfold pauser_onNext, modify. simpl.
  destruct (pauser st) eqn:Hp; simpl; [done|].
  rewrite fold_left_pauser; [done|].
  intros s x. by destruct (publish_same_frame x (updCell (set_connected true) x s))
    as (_ & -> & _).
Qed.






(** ** An assignment publishes the new state *)

Lemma same_frame_sym st st' : same_frame st st' -> same_frame st' st.
Proof. intros (H1 & H2 & H3). by split. Qed.

Lemma same_frame_cell st st' j :
  same_frame st st' -> frame <$> getCell st' j = frame <$> getCell st j.
Proof.
  intros (Hf & _). unfold getCell. rewrite <- !list_lookup_fmap.
  change (map frame (cells st') !! j = map frame (cells st) !! j).
  by rewrite Hf.
Qed.

Lemma same_frame_isProvisional st st' j :
  same_frame st st' -> isProvisional st' j = isProvisional st j.
Proof.
  intros Hsf. unfold isProvisional.
  pose proof (same_frame_cell _ _ j Hsf) as H.
  destruct (getCell st' j) as [c'|], (getCell st j) as [c|];
    simpl in H; try done.
  by injection H as _ -> _ _ _ _ _.
Qed.

Lemma same_frame_childrenOf st st' j :
  same_frame st st' -> childrenOf st' j = childrenOf st j.
Proof.
  intros Hsf. unfold childrenOf.
  pose proof (same_frame_cell _ _ j Hsf) as H.
  destruct (getCell st' j) as [c'|], (getCell st j) as [c|];
    simpl in H; try done.
  by injection H as _ _ -> _ _ _ _.
Qed.

Lemma same_frame_latestNodes st st' reg :
  same_frame st st' -> latestNodes st' reg = latestNodes st reg.
Proof.
  intros Hsf. unfold latestNodes.
  induction reg as [|[k child] reg IH]; [done|].
  rewrite !filter_cons. simpl.
  rewrite (same_frame_isProvisional _ _ child Hsf), IH.
  destruct (isProvisional st child); simpl; done.
Qed.

Lemma same_frame_listening st st' p x :
  same_frame st st' -> listening st' p x = listening st p x.
Proof.
  intros Hsf. unfold listening.
  pose proof (same_frame_cell _ _ p Hsf) as H.
  destruct (getCell st' p) as [c'|], (getCell st p) as [c|];
    simpl in H; try done.
  injection H as _ _ Ech Eem _ Eco _.
  by rewrite Ech, Eem, Eco, (same_frame_latestNodes _ _ _ Hsf).
Qed.

Lemma latestValues_local st st' nodes :
  (forall kc, kc ∈ nodes -> latestValue st' (snd kc) = latestValue st (snd kc)) ->
  latestValues st' nodes = latestValues st nodes.
Proof.
  induction nodes as [|[k child] nodes IH]; intros H; simpl; [done|].
  pose proof (H (k, child) ltac:(by left)) as Hc. simpl in Hc.
  rewrite Hc. rewrite IH; [done|].
  intros kc Hkc. apply H. by right.
Qed.

Lemma createTreeObservable_local st st' p :
  same_frame st st' ->
  (forall kc, kc ∈ childrenOf st p ->
              latestValue st' (snd kc) = latestValue st (snd kc)) ->
  createTreeObservable st' p = createTreeObservable st p.
Proof.
  intros Hsf Hl. unfold createTreeObservable.
  unfold childrenOf in Hl.
  pose proof (same_frame_cell _ _ p Hsf) as H.
  destruct (getCell st' p) as [c'|], (getCell st p) as [c|];
    simpl in H; try done.
  injection H as Ek _ Ech Eem _ _ _.
  rewrite Ek, Ech, Eem, (same_frame_latestNodes _ _ _ Hsf).
  destruct (c_kind c); [done|]. destruct (emitted c); [|done].
  assert (E : latestValues st' (latestNodes st (children c))
              = latestValues st (latestNodes st (children c))).
  { apply latestValues_local. intros kc Hkc. apply Hl.
    unfold latestNodes in Hkc. by apply list_elem_of_filter in Hkc as [_ ?]. }
  destruct (latestNodes st (children c)); [done|]. by rewrite E.
Qed.

Lemma latestValues_grow st st' nodes :
  (forall j, isSome (latestValue st j) = true ->
             isSome (latestValue st' j) = true) ->
  isSome (latestValues st nodes) = true ->
  isSome (latestValues st' nodes) = true.
Proof.
  intros Hg. induction nodes as [|[k child] nodes IH]; simpl; [done|].
  pose proof (Hg child) as Hc.
  destruct (latestValue st child); [|done].
  destruct (latestValues st nodes); [|done].
  intros _. specialize (Hc eq_refl). specialize (IH eq_refl).
  destruct (latestValue st' child); [|done].
  by destruct (latestValues st' nodes).
Qed.

Lemma createTreeObservable_grow st st' p :
  same_frame st st' ->
  (forall j, isSome (latestValue st j) = true ->
             isSome (latestValue st' j) = true) ->
  isSome (createTreeObservable st p) = true ->
  isSome (createTreeObservable st' p) = true.
Proof.
  intros Hsf Hg. unfold createTreeObservable.
  pose proof (same_frame_cell _ _ p Hsf) as H.
  destruct (getCell st' p) as [c'|], (getCell st p) as [c|];
    simpl in H; try done.
  injection H as Ek _ Ech Eem _ _ _.
  rewrite Ek, Ech, Eem, (same_frame_latestNodes _ _ _ Hsf).
  destruct (c_kind c); [done|]. destruct (emitted c); [|done].
  pose proof (latestValues_grow st st' (latestNodes st (children c)) Hg) as E.
  destruct (latestNodes st (children c)); [done|].
  destruct (latestValues st _); [|done].
  intros _. specialize (E eq_refl). by destruct (latestValues st' _).
Qed.

Lemma wire_grow d :
  forall st st' x up,
    same_frame st st' ->
    (forall j, isSome (latestValue st j) = true ->
               isSome (latestValue st' j) = true) ->
    wire d st x up -> wire d st' x up.
Proof.
  induction d as [|d IH]; intros st st' x up Hsf Hg; [done|].
  destruct up as [|p up]; [done|]. simpl.
  intros (Hl & Hch & Hup & Hs & Hw).
  rewrite (same_frame_listening _ _ _ _ Hsf),
          (same_frame_childrenOf _ _ _ Hsf).
  repeat split; try done.
  - by apply (createTreeObservable_grow st).
  - by apply (IH st).
Qed.

Lemma createTreeObservable_agree st st' p :
  same_frame st st' ->
  (forall j, latestValue st' j = latestValue st j) ->
  createTreeObservable st' p = createTreeObservable st p.
Proof. intros Hsf Hl. apply createTreeObservable_local; [done|]. auto. Qed.

Lemma wire_fresh_agree d :
  forall st st' x up,
    same_frame st st' ->
    (forall j, latestValue st' j = latestValue st j) ->
    wire d st x up -> fresh d st up ->
    wire d st' x up /\ fresh d st' up.
Proof.
  intros st st' x up Hsf Hl Hw Hf. split.
  - apply (wire_grow d st); [done| |done]. intros j. by rewrite Hl.
  - clear x Hw. revert up Hf.
    induction d as [|d IH]; intros up; [done|].
    destruct up as [|p up]; [done|]. simpl. intros [Hp Hf].
    split; [|by apply IH].
    by rewrite (createTreeObservable_agree st st' p Hsf Hl), Hl.
Qed.

Lemma propagate_outside chain :
  forall x st j, j ∉ chain -> getCell (propagate chain x st) j = getCell st j.
Proof.
  induction chain as [|p chain IH]; intros x st j Hj; simpl; [done|].
  destruct (listening st p x); [|done].
  destruct (createTreeObservable st p); [|done].
  rewrite IH by (intros Hin; apply Hj; by right).
  unfold valueSubject_onNext. apply updCell_getCell_ne.
  intros ->. apply Hj. by left.
Qed.

Lemma valueSubject_onNext_grow p w st j :
  isSome (latestValue st j) = true ->
  isSome (latestValue (valueSubject_onNext p w st) j) = true.
Proof.
  unfold latestValue, valueSubject_onNext.
  destruct (decide (p = j)) as [->|Hne].
  - destruct (getCell st j) as [c|] eqn:Hc; [|done].
    rewrite (updCell_getCell _ _ _ _ Hc). simpl. by rewrite last_snoc.
  - by rewrite updCell_getCell_ne.
Qed.

Lemma propagate_grow chain :
  forall x st j,
    isSome (latestValue st j) = true ->
    isSome (latestValue (propagate chain x st) j) = true.
Proof.
  induction chain as [|p chain IH]; intros x st j Hj; simpl; [done|].
  destruct (listening st p x); [|done].
  destruct (createTreeObservable st p); [|done].
  apply IH. by apply valueSubject_onNext_grow.
Qed.

(** A value that climbs a live chain leaves every branch of it up to
    date. *)
Lemma climb d :
  forall st x up,
    wire d st x up ->
    wire d (propagate up x st) x up /\ fresh d (propagate up x st) up.
Proof.
  induction d as [|d IH]; intros st x up Hw; [done|].
  destruct up as [|p up]; [done|].
  pose proof Hw as (Hl & Hch & Hup & Hs & Hw').
  simpl propagate. rewrite Hl.
  destruct (createTreeObservable st p) as [w|] eqn:Hcomb; [|done].
  set (st2 := valueSubject_onNext p w st).
  set (st' := propagate up p st2).
  assert (Hsf2 : same_frame st st2) by apply valueSubject_onNext_same_frame.
  assert (Hsf' : same_frame st st').
  { etransitivity; [exact Hsf2 | apply propagate_same_frame]. }
  assert (Hw2 : wire d st2 p up).
  { apply (wire_grow d st); [done| |done].
    intros j. apply valueSubject_onNext_grow. }
  destruct (IH st2 p up Hw2) as [HwI HfI]. fold st' in HwI, HfI.
  assert (Hgrow : forall j, isSome (latestValue st j) = true ->
                            isSome (latestValue st' j) = true).
  { intros j Hj. apply propagate_grow. by apply valueSubject_onNext_grow. }
  assert (Hp_out : p ∉ up).
  { intros Hin. rewrite Forall_forall in Hup. specialize (Hup p Hin). lia. }
  assert (Hp' : latestValue st' p = Some w).
  { unfold latestValue, st'. rewrite propagate_outside by done.
    unfold st2, valueSubject_onNext.
    destruct (createTreeObservable_kind _ _ _ Hcomb) as (cp & Hcp & _).
    rewrite (updCell_getCell _ _ _ _ Hcp). simpl. by rewrite last_snoc. }
  assert (Hcomb' : createTreeObservable st' p = Some w).
  { rewrite <- Hcomb. apply createTreeObservable_local; [done|].
    intros kc Hkc. rewrite Forall_forall in Hch. specialize (Hch kc Hkc).
    unfold latestValue, st'. rewrite propagate_outside.
    - unfold st2, valueSubject_onNext. rewrite updCell_getCell_ne; [done|lia].
    - intros Hin. rewrite Forall_forall in Hup. specialize (Hup _ Hin). lia. }
  split.
  - simpl. rewrite (same_frame_listening _ _ _ _ Hsf'),
                   (same_frame_childrenOf _ _ _ Hsf').
    repeat split; try done. by rewrite Hcomb'.
  - simpl. split; [by rewrite Hcomb', Hp' | done].
Qed.

Lemma same_frame_forward st st' j c :
  same_frame st st' -> getCell st j = Some c ->
  exists c', getCell st' j = Some c' /\ frame c' = frame c.
Proof.
  intros Hsf Hc. apply same_frame_sym in Hsf.
  apply (same_frame_getCell _ _ _ _ Hsf Hc).
Qed.

Lemma children_settled_app (P : value -> nat -> nat -> Prop) a :
  forall ra b rb next m hi,
    children_settled P a ra next m -> children_settled P b rb m hi ->
    children_settled P (a ++ b) (ra ++ rb) next hi.
Proof.
  induction a as [|[k sub] a IH]; intros [|[k' child] ra] b rb next m hi;
    simpl; try done.
  - by intros ->.
  - intros (-> & -> & h & Hs & Hrest) Hb.
    split; [done|]. split; [done|]. exists h. split; [done|].
    by apply (IH _ _ _ _ m).
Qed.

Lemma children_settled_lower (P : value -> nat -> nat -> Prop) fs :
  Forall (fun kv => forall child h, P (snd kv) child h -> child < h) fs ->
  forall reg next hi,
    children_settled P fs reg next hi ->
    Forall (fun kc => next <= snd kc) reg.
Proof.
  induction fs as [|[k sub] fs IH]; intros Hr [|[k' child] reg] next hi;
    simpl; try done.
  apply Forall_cons in Hr as [Hsub Hr]. simpl in Hsub.
  intros (-> & -> & h & Hs & Hrest). constructor; [simpl; lia|].
  apply Hsub in Hs.
  eapply Forall_impl; [apply (IH Hr _ _ _ Hrest)|]. simpl. intros; lia.
Qed.

Lemma children_settled_others st st' up fs reg next hi :
  same_frame st st' ->
  (forall j, next <= j -> j < hi -> getCell st' j = getCell st j) ->
  children_settled (settled st up) fs reg next hi ->
  children_settled (settled st' up) fs reg next hi.
Proof.
  intros (_ & _ & Hps) Hsame.
  apply children_settled_impl; [apply settled_ranges|].
  apply Forall_forall. intros kv _ child h H1 H2.
  apply settled_transfer.
  - intros j. by rewrite Hps.
  - intros j c Hj1 Hj2 Hc. exists c. rewrite Hsame by lia. done.
Qed.

Lemma lookupKey_app_fresh {A} k (x : A) a b :
  k ∉ map fst a -> lookupKey k (a ++ (k, x) :: b) = Some x.
Proof.
  induction a as [|[k0 y] a IH]; simpl; intros Hn.
  - by rewrite String.eqb_refl.
  - destruct (String.eqb_spec k0 k) as [->|Hne].
    + exfalso. apply Hn. by left.
    + apply IH. intros Hin. apply Hn. by right.
Qed.

Lemma same_shape_obj fs v' :
  same_shape (VObj fs) v' <->
  exists fs', v' = VObj fs' /\
    Forall2 (fun kv kv' => fst kv = fst kv' /\ same_shape (snd kv) (snd kv'))
            fs fs'.
Proof.
  assert (Hk : forall fs fs',
    (fix fields (fs fs' : list (string * value)) {struct fs} : Prop :=
       match fs, fs' with
       | [], [] => True
       | (k, sub) :: fs1, (k', sub') :: fs1' =>
           k = k' /\ same_shape sub sub' /\ fields fs1 fs1'
       | _, _ => False
       end) fs fs' <->
    Forall2 (fun kv kv' => fst kv = fst kv' /\ same_shape (snd kv) (snd kv'))
            fs fs').
  { clear. induction fs as [|[k sub] fs IH]; intros [|[k' sub'] fs'].
    - split; [constructor | done].
    - split; [done | intros H; inversion H].
    - split; [done | intros H; inversion H].
    - rewrite IH. split.
      + intros (-> & Hs & Hr). by constructor.
      + intros H. inversion H as [|? ? ? ? [Hk Hs] Hr]; subst.
        simpl in *. by subst. }
  destruct v' as [| | | | |fs']; simpl;
    try (split; [done | intros (? & ? & _); done]).
  rewrite Hk. split.
  - intros H. by exists fs'.
  - intros (? & [= <-] & H). done.
Qed.

Lemma same_shape_keys (fs fs' : list (string * value)) :
  Forall2 (fun kv kv' => fst kv = fst kv' /\ same_shape (snd kv) (snd kv'))
          fs fs' ->
  map fst fs' = map fst fs.
Proof.
  induction 1 as [|kv kv' fs fs' [Hk _] _ IH]; [done|].
  simpl. by rewrite Hk, IH.
Qed.

(** ** What a branch publishes during an assignment *)

Lemma stages_obj fs fs' :
  stages (VObj fs) (VObj fs') = stages_fields stages [] fs fs'.
Proof.
  assert (H : forall fs fs' done',
    (fix walk (done' fs fs' : list (string * value)) {struct fs}
       : list value :=
       match fs, fs' with
       | (k, sub) :: t, (k', sub') :: t' =>
           map (fun w => VObj (done' ++ (k', w) :: t)) (stages sub sub')
           ++ walk (done' ++ [(k', sub')]) t t'
       | _, _ => []
       end) done' fs fs' = stages_fields stages done' fs fs').
  { clear. induction fs as [|[k sub] fs IH]; intros [|[k' sub'] fs'] done';
      try done.
    simpl. by rewrite IH. }
  simpl. apply H.
Qed.

Lemma latestValues_map st nodes m :
  latestValues st nodes = Some m ->
  m = map (fun kc => (fst kc, default VUndefined (latestValue st (snd kc))))
          nodes.
Proof.
  revert m. induction nodes as [|[k c] nodes IH]; intros m; simpl.
  - by intros [= <-].
  - destruct (latestValue st c) as [v|]; [|done].
    destruct (latestValues st nodes) as [acc|]; [|done].
    intros [= <-]. simpl. f_equal. by apply IH.
Qed.

Lemma combined_exact st p :
  isSome (createTreeObservable st p) = true ->
  createTreeObservable st p
  = Some (VObj (map (fun kc => (fst kc,
                                default VUndefined (latestValue st (snd kc))))
                    (latestNodes st (childrenOf st p)))).
Proof.
  unfold createTreeObservable, childrenOf.
  destruct (getCell st p) as [c|]; [|done].
  destruct (c_kind c); [done|]. destruct (emitted c); [|done].
  destruct (latestNodes st (children c)) as [|n nodes] eqn:Hn; [done|].
  destruct (latestValues st (n :: nodes)) as [m|] eqn:Hm; [|done].
  intros _. simpl. by rewrite (latestValues_map _ _ _ Hm).
Qed.

Lemma latestNodes_subset st reg kc :
  kc ∈ latestNodes st reg -> kc ∈ reg.
Proof. unfold latestNodes. by intros [_ ?]%list_elem_of_filter. Qed.

Lemma apart_same_frame d :
  forall st st' lo hi up0 x up,
    same_frame st st' ->
    apart d st lo hi up0 x up -> apart d st' lo hi up0 x up.
Proof.
  induction d as [|d IH]; intros st st' lo hi up0 x up Hsf; [done|].
  destruct up as [|p up]; [done|]. simpl. intros [Hch Ha].
  rewrite (same_frame_childrenOf _ _ _ Hsf). split; [done|].
  by apply (IH st).
Qed.

Lemma apart_weaken d :
  forall st lo hi up0 lo' hi' up0' x up,
    lo <= lo' -> hi' <= hi ->
    (forall c, c < lo \/ hi <= c -> c ∉ up0 -> c ∉ up0') ->
    apart d st lo hi up0 x up -> apart d st lo' hi' up0' x up.
Proof.
  induction d as [|d IH]; intros st lo hi up0 lo' hi' up0' x up Hlo Hhi Hup;
    [done|].
  destruct up as [|p up]; [done|]. simpl. intros [Hch Ha]. split.
  - eapply Forall_impl; [exact Hch|]. simpl.
    intros kc [?|[Hr Hn]]; [by left|]. right. split; [lia | by apply Hup].
  - by apply (IH st lo hi up0).
Qed.

(** A value that climbs a live chain is published once by every branch
    of it, seated among the values of the branch's other children. *)
Lemma climb_grown d :
  forall st0 st x up w lo hi up0,
    same_frame st0 st ->
    wire d st x up ->
    apart d st0 lo hi up0 x up ->
    (forall j, j < lo \/ hi <= j -> j ∉ up0 ->
               latestValue st j = latestValue st0 j) ->
    (forall q, q ∈ up -> getCell st q = getCell st0 q) ->
    (forall q, q ∈ up -> q ∈ up0) ->
    latestValue st x = Some w ->
    grown d st0 (propagate up x st) x up [w].
Proof.
  induction d as [|d IH];
    intros st0 st x up w lo hi up0 Hsf Hw Ha Hinv Hsame Hsub Hx; [done|].
  destruct up as [|p up]; [done|].
  destruct Hw as (Hl & Hch & Hup & Hs & Hw').
  destruct Ha as [Hap Ha'].
  simpl propagate. rewrite Hl.
  pose proof (combined_exact st p Hs) as Hcomb.
  assert (Hre : createTreeObservable st p = Some (reseat st0 p x w)).
  { rewrite Hcomb. unfold reseat. do 2 f_equal.
    rewrite (same_frame_childrenOf _ _ _ Hsf),
            (same_frame_latestNodes _ _ _ Hsf).
    apply map_ext_in. intros kc Hkc. f_equal.
    apply list_elem_of_In, latestNodes_subset in Hkc.
    rewrite Forall_forall in Hap. specialize (Hap kc Hkc).
    destruct (Nat.eqb_spec (snd kc) x) as [->|Hne].
    - by rewrite Hx.
    - destruct Hap as [?|[Hr Hn]]; [done|]. by rewrite Hinv. }
  rewrite Hre.
  set (w2 := reseat st0 p x w).
  set (st2 := valueSubject_onNext p w2 st).
  assert (Hp_out : p ∉ up).
  { intros Hin. rewrite Forall_forall in Hup. specialize (Hup p Hin). lia. }
  destruct (createTreeObservable_kind _ _ _ Hre) as (cp & Hcp & _).
  assert (Hcp2 : getCell st2 p
                 = Some (set_streams (subject cp ++ [w2])
                           (map (fun o => o ++ [w2]) (observers cp)) cp)).
  { unfold st2, valueSubject_onNext.
    by rewrite (updCell_getCell _ _ _ _ Hcp). }
  assert (Hsf2 : same_frame st st2) by apply valueSubject_onNext_same_frame.
  split.
  - unfold published. rewrite propagate_outside by done.
    rewrite Hcp2. rewrite <- (Hsame p) by (by left). rewrite Hcp. done.
  - simpl map. apply (IH st0 st2 p up w2 lo hi up0); try done.
    + by etransitivity.
    + apply (wire_grow d st); [done| |done].
      intros j. apply valueSubject_onNext_grow.
    + intros j Hj Hj'. rewrite <- Hinv by done.
      unfold latestValue, st2, valueSubject_onNext.
      rewrite updCell_getCell_ne; [done|].
      intros ->. apply Hj', Hsub. by left.
    + intros q Hq. rewrite <- Hsame by (by right).
      unfold st2, valueSubject_onNext. apply updCell_getCell_ne.
      intros ->. done.
    + intros q Hq. apply Hsub. by right.
    + unfold latestValue. rewrite Hcp2. simpl. by rewrite last_snoc.
Qed.

Lemma grown_nil d :
  forall st st' x up,
    wire d st x up ->
    (forall q, q ∈ up -> getCell st' q = getCell st q) ->
    grown d st st' x up [].
Proof.
  induction d as [|d IH]; intros st st' x up Hw Hsame; [done|].
  destruct up as [|p up]; [done|].
  destruct Hw as (_ & _ & _ & _ & Hw). simpl. split.
  - unfold published. rewrite Hsame by (by left). by rewrite app_nil_r.
  - apply IH; [done|]. intros q Hq. apply Hsame. by right.
Qed.

Lemma reseat_same st st' p x w lo hi (up0 : list nat) :
  same_frame st st' ->
  Forall (fun kc => snd kc = x \/
                    ((snd kc < lo \/ hi <= snd kc) /\ snd kc ∉ up0))
         (childrenOf st p) ->
  (forall j, j < lo \/ hi <= j -> j ∉ up0 ->
             latestValue st' j = latestValue st j) ->
  reseat st' p x w = reseat st p x w.
Proof.
  intros Hsf Hap Hinv. unfold reseat. f_equal.
  rewrite (same_frame_childrenOf _ _ _ Hsf),
          (same_frame_latestNodes _ _ _ Hsf).
  apply map_ext_in. intros kc Hkc. cbv beta.
  apply list_elem_of_In, latestNodes_subset in Hkc.
  rewrite Forall_forall in Hap. specialize (Hap kc Hkc).
  destruct (Nat.eqb_spec (snd kc) x) as [Heq|Hne]; [done|].
  destruct Hap as [?|[Hr Hn]]; [done|]. by rewrite Hinv.
Qed.

Lemma grown_app d :
  forall s0 s1 s2 x up A B lo hi (up0 : list nat),
    same_frame s0 s1 ->
    apart d s0 lo hi up0 x up ->
    (forall j, j < lo \/ hi <= j -> j ∉ up0 ->
               latestValue s1 j = latestValue s0 j) ->
    grown d s0 s1 x up A -> grown d s1 s2 x up B ->
    grown d s0 s2 x up (A ++ B).
Proof.
  induction d as [|d IH];
    intros s0 s1 s2 x up A B lo hi up0 Hsf Ha Hinv HA HB; [done|].
  destruct up as [|p up]; [done|].
  destruct Ha as [Hap Ha]. destruct HA as [HpA HA]. destruct HB as [HpB HB].
  assert (Hre : map (reseat s1 p x) B = map (reseat s0 p x) B).
  { apply map_ext. intros w. by apply (reseat_same s0 s1 p x w lo hi up0). }
  rewrite Hre in HpB, HB. simpl. rewrite map_app. split.
  - rewrite HpB, HpA. by rewrite <- app_assoc.
  - by apply (IH s0 s1 s2 p up _ _ lo hi up0).
Qed.

Lemma leaf_push st up id c v v' d :
  getCell st id = Some c -> c_kind c = KLeaf -> provisional c = false ->
  upstream c = up -> last (subject c) = Some v ->
  Forall (fun a => a < id) up ->
  wire d st id up -> fresh d st up -> apart d st id (S id) up id up ->
  exists st',
    leaf_setNextState id v' st = (st', Ok tt) /\
    same_frame st st' /\
    (exists c', getCell st' id = Some c' /\ c_kind c' = KLeaf /\
                provisional c' = false /\ upstream c' = up /\
                last (subject c') = Some v') /\
    wire d st' id up /\ fresh d st' up /\
    others_same id (S id) up st st' /\
    grown d st st' id up (if value_eqb v v' then [] else [v']).
Proof.
  intros Hc Hk Hp Hu Hl Hup Hw Hf Ha.
  set (f := set_streams (subject c ++ [v'])
                        (map (distinctUntilChanged v') (observers c))).
  set (st1 := updCell f id st).
  assert (Hc1 : getCell st1 id = Some (f c)) by (by apply updCell_getCell).
  assert (Hsf1 : same_frame st st1).
  { unfold same_frame, st1, updCell. simpl. split; [|done].
    apply list_eq. intros i. rewrite !list_lookup_fmap.
    destruct (decide (id = i)) as [->|Hne].
    - rewrite list_lookup_alter_eq. unfold getCell in Hc. rewrite Hc.
      simpl. unfold frame. simpl. by rewrite length_map.
    - by rewrite list_lookup_alter_ne. }
  assert (Hout : id ∉ up).
  { intros Hin. rewrite Forall_forall in Hup. specialize (Hup _ Hin). lia. }
  assert (Hother : forall q, q ∈ up -> getCell st1 q = getCell st q).
  { intros q Hq. unfold st1. apply updCell_getCell_ne. by intros ->. }
  assert (Hrun : leaf_setNextState id v' st
    = (if value_eqb v v' then st1 else propagate up id st1, Ok tt)).
  { unfold leaf_setNextState, modify. rewrite Hc, Hl, Hu. fold f. fold st1.
    by destruct (value_eqb v v'). }
  rewrite Hrun. eexists. split; [reflexivity|].
  destruct (value_eqb v v') eqn:E.
  - apply value_eqb_eq in E. subst v'.
    assert (Hlat : forall j, latestValue st1 j = latestValue st j).
    { intros j. unfold latestValue, st1.
      destruct (decide (id = j)) as [<-|Hne].
      - rewrite (updCell_getCell _ _ _ _ Hc), Hc. simpl.
        by rewrite last_snoc.
      - by rewrite updCell_getCell_ne. }
    destruct (wire_fresh_agree d st st1 id up Hsf1 Hlat Hw Hf) as [Hw1 Hf1].
    split; [done|]. split.
    { exists (f c). split; [done|]. simpl. by rewrite last_snoc. }
    split; [done|]. split; [done|]. split.
    { intros j Hj _. unfold st1. apply updCell_getCell_ne. lia. }
    by apply grown_nil.
  - assert (Hw1 : wire d st1 id up).
    { apply (wire_grow d st); [done| |done].
      intros j. unfold latestValue, st1.
      destruct (decide (id = j)) as [<-|Hne].
      - rewrite (updCell_getCell _ _ _ _ Hc). simpl. by rewrite last_snoc.
      - by rewrite updCell_getCell_ne. }
    destruct (climb d st1 id up Hw1) as [Hw' Hf'].
    split; [etransitivity; [exact Hsf1 | apply propagate_same_frame]|].
    split.
    { exists (f c). rewrite propagate_outside by done.
      split; [done|]. simpl. by rewrite last_snoc. }
    split; [done|]. split; [done|]. split.
    { intros j Hj Hj'. rewrite propagate_outside by done.
      unfold st1. apply updCell_getCell_ne. lia. }
    apply (climb_grown d st st1 id up v' id (S id) up); try done.
    + intros j Hj _. unfold latestValue, st1.
      rewrite updCell_getCell_ne; [done | lia].
    + unfold latestValue. rewrite Hc1. simpl. by rewrite last_snoc.
Qed.

Lemma leaf_assigned v :
  v <> VUndefined -> isPlainObject v = false -> assigned v.
Proof.
  intros Hu Hobj v' st up id hi d Hs Hshape _ _ Hw Hf Ha.
  assert (Hleaf : exists c,
    getCell st id = Some c /\ c_kind c = KLeaf /\ provisional c = false /\
    upstream c = up /\ last (subject c) = Some v /\ hi = S id).
  { destruct v; try done; simpl in Hs; tauto. }
  destruct Hleaf as (c & Hc & Hk & Hp & Hup & Hl & ->).
  pose proof (settled_up _ _ _ _ _ Hs) as Hchain.
  destruct (leaf_push st up id c v v' d Hc Hk Hp Hup Hl Hchain Hw Hf Ha)
    as (st' & Hrun & Hsf & Hc' & Hw' & Hf' & Ho & Hg).
  exists st'. rewrite setNextState_unfold, Hc, Hk.
  split; [done|]. split; [done|]. split; [|split; [done|]].
  - destruct v; try done; destruct v'; try done; simpl;
      (split; [done|]); destruct Hc' as (c' & ? & ? & ? & ? & ?);
      exists c'; done.
  - split; [done|]. split; [done|]. split; [by rewrite Hobj|].
    by destruct v.
Qed.

Lemma children_settled_upper (P : value -> nat -> nat -> Prop) fs :
  Forall (fun kv => forall child h, P (snd kv) child h -> child < h) fs ->
  forall reg next hi,
    children_settled P fs reg next hi ->
    Forall (fun kc => snd kc < hi) reg.
Proof.
  induction fs as [|[k sub] fs IH]; intros Hr [|[k' child] reg] next hi;
    simpl; try done.
  apply Forall_cons in Hr as [Hsub Hr]. simpl in Hsub.
  intros (-> & -> & h & Hs & Hrest).
  pose proof (children_settled_le P fs Hr _ _ _ Hrest) as Hle.
  apply Hsub in Hs. constructor; [simpl; lia|].
  apply (IH Hr _ _ _ Hrest).
Qed.

Lemma children_settled_values st up fs :
  forall reg next hi,
    children_settled (settled st up) fs reg next hi ->
    map (fun kc => (fst kc, default VUndefined (latestValue st (snd kc)))) reg
    = fs.
Proof.
  induction fs as [|[k sub] fs IH]; intros [|[k' child] reg] next hi;
    simpl; try done.
  intros (-> & -> & h & Hs & Hrest).
  apply settled_latest in Hs as [_ ->]. simpl. f_equal.
  by apply (IH _ _ _ Hrest).
Qed.

Lemma reseat_children st up R cR done' regdone k sub todo regtodo m hi w :
  getCell st R = Some cR ->
  children cR = regdone ++ (k, m) :: regtodo ->
  children_settled (settled st up) done' regdone (S R) m ->
  children_settled (settled st up) ((k, sub) :: todo) ((k, m) :: regtodo)
                   m hi ->
  reseat st R m w = VObj (done' ++ (k, w) :: todo).
Proof.
  intros HcR Hch Hdone Htodo.
  pose proof (children_settled_app _ _ _ _ _ _ _ _ Hdone Htodo) as Hwhole.
  destruct (children_settled_latest _ _ _ _ _ _ Hwhole) as [Hnodes _].
  unfold reseat, childrenOf. rewrite HcR, Hch, Hnodes. f_equal.
  rewrite map_app. simpl. rewrite Nat.eqb_refl.
  pose proof (children_settled_upper _ _ (settled_ranges _ _ _) _ _ _ Hdone)
    as Hup.
  simpl in Htodo. destruct Htodo as (_ & _ & h & Hs & Htodo).
  pose proof (settled_range _ _ _ _ _ Hs) as Hmh.
  pose proof (children_settled_lower _ _ (settled_ranges _ _ _) _ _ _ Htodo)
    as Hlo.
  f_equal; [|f_equal].
  - rewrite <- (children_settled_values _ _ _ _ _ _ Hdone).
    apply map_ext_in. intros kc Hkc. apply list_elem_of_In in Hkc.
    rewrite Forall_forall in Hup. specialize (Hup kc Hkc).
    destruct (Nat.eqb_spec (snd kc) m); [lia | done].
  - rewrite <- (children_settled_values _ _ _ _ _ _ Htodo).
    apply map_ext_in. intros kc Hkc. apply list_elem_of_In in Hkc.
    rewrite Forall_forall in Hlo. specialize (Hlo kc Hkc).
    destruct (Nat.eqb_spec (snd kc) m); [lia | done].
Qed.

Lemma assign_children R up hi d todo :
  Forall (fun kv => assigned (snd kv)) todo ->
  forall todo' regtodo done' regdone st m cR,
    Forall2 (fun kv kv' => fst kv = fst kv' /\ same_shape (snd kv) (snd kv'))
            todo todo' ->
    NoDup (map fst (done' ++ todo')) ->
    getCell st R = Some cR -> c_kind cR = KTree -> emitted cR = true ->
    children cR = regdone ++ regtodo -> R ∈ pausables st ->
    gate_ok st -> pauser st = true -> Forall (fun a => a < R) up ->
    children_settled (settled st (R :: up)) done' regdone (S R) m ->
    children_settled (settled st (R :: up)) todo regtodo m hi ->
    wire d st R up -> fresh d st up -> apart d st R hi up R up ->
    createTreeObservable st R = latestValue st R ->
    exists st',
      forEach (assignChild (VObj (done' ++ todo'))) regtodo st = (st', Ok tt) /\
      same_frame st st' /\
      children_settled (settled st' (R :: up)) (done' ++ todo')
                       (regdone ++ regtodo) (S R) hi /\
      wire d st' R up /\ fresh d st' up /\
      createTreeObservable st' R = latestValue st' R /\
      others_same R hi up st st' /\
      published st' R
      = published st R ++ stages_fields stages done' todo todo' /\
      grown d st st' R up (stages_fields stages done' todo todo').
Proof.
  induction todo as [|[k sub] todo IH];
    intros Hall todo' regtodo done' regdone st m cR Hshape Hnd HcR Hkind Hem
           Hch Hps Hgate Hpauser Hup Hdone Htodo Hw Hf Hap Hfresh.
  - inversion Hshape; subst.
    destruct regtodo as [|[? ?] ?]; [|done]. simpl in Htodo. subst m.
    exists st. rewrite !app_nil_r. repeat split; try done.
    by apply grown_nil.
  - inversion Hshape as [|? [k' sub'] ? todo1' [Hk Hsub] Hrest]; subst.
    simpl in Hk, Hsub. subst k'.
    destruct regtodo as [|[k' child] regtodo]; [done|].
    pose proof Htodo as Htodo0.
    simpl in Htodo. destruct Htodo as (<- & -> & h & Hs & Htodo).
    apply Forall_cons in Hall as [Hasub Hall]. simpl in Hasub.
    assert (Hfree : k ∉ map fst done').
    { rewrite map_app in Hnd. simpl in Hnd.
      apply NoDup_app in Hnd as (_ & Hdis & _).
      intros Hin. apply (Hdis k Hin). by left. }
    assert (Hwhole : children_settled (settled st (R :: up))
                       (done' ++ (k, sub) :: todo)
                       (regdone ++ (k, m) :: regtodo) (S R) hi)
      by (by apply (children_settled_app _ _ _ _ _ _ m)).
    assert (Hcomb : isSome (createTreeObservable st R) = true).
    { rewrite (combined_of_children st (R :: up) R cR
                 (done' ++ (k, sub) :: todo) (S R) hi); try done.
      - by destruct done'.
      - by rewrite Hch. }
    pose proof (settled_range _ _ _ _ _ Hs) as Hmh.
    pose proof (children_settled_le _ _ (settled_ranges _ _ _) _ _ _ Htodo)
      as Hhhi.
    assert (HR : Forall (fun kc => S R <= snd kc) (regdone ++ (k, m) :: regtodo))
      by apply (children_settled_lower _ _ (settled_ranges _ _ _) _ _ _
                  Hwhole).
    assert (HmR : S R <= m).
    { rewrite Forall_forall in HR. apply (HR (k, m)).
      apply elem_of_app. right. by left. }
    assert (Hout : forall j, S R <= j -> j ∉ R :: up).
    { intros j Hj Hin. apply elem_of_cons in Hin as [->|Hin]; [lia|].
      rewrite Forall_forall in Hup. specialize (Hup _ Hin). lia. }
    assert (Hwire : wire (S d) st m (R :: up)).
    { simpl. repeat split; try done.
      - unfold listening. rewrite HcR.
        destruct Hgate as [_ Hconn]. rewrite (Hconn R cR HcR), Hpauser, Hem.
        rewrite bool_decide_true by done. simpl. rewrite Hch.
        destruct (children_settled_latest _ _ _ _ _ _ Hwhole) as [-> _].
        apply existsb_exists. exists (k, m). split.
        + apply in_or_app. right. by left.
        + simpl. apply Nat.eqb_refl.
      - unfold childrenOf. rewrite HcR, Hch.
        eapply Forall_impl; [exact HR|]. simpl. intros; lia. }
    assert (Hfresh' : fresh (S d) st (R :: up)) by (by split).
    assert (Hapart : apart (S d) st m h (R :: up) m (R :: up)).
    { simpl. split.
      - unfold childrenOf. rewrite HcR, Hch. apply Forall_app. split.
        + pose proof (children_settled_upper _ _ (settled_ranges _ _ _)
                        _ _ _ Hdone) as Hlt.
          pose proof (children_settled_lower _ _ (settled_ranges _ _ _)
                        _ _ _ Hdone) as Hge.
          apply Forall_forall. intros kc Hkc.
          rewrite Forall_forall in Hlt, Hge.
          specialize (Hlt kc Hkc). specialize (Hge kc Hkc).
          right. split; [lia | apply Hout; lia].
        + constructor; [by left|].
          pose proof (children_settled_lower _ _ (settled_ranges _ _ _)
                        _ _ _ Htodo) as Hge.
          apply Forall_forall. intros kc Hkc.
          rewrite Forall_forall in Hge. specialize (Hge kc Hkc).
          right. split; [lia | apply Hout; lia].
      - apply (apart_weaken d st R hi up); [lia | lia | | done].
        intros c Hc Hn Hin. apply elem_of_cons in Hin as [->|Hin]; [lia|done]. }
    destruct (Hasub sub' st (R :: up) m h (S d) Hs Hsub Hgate
                (fun _ => Hpauser) Hwire Hfresh' Hapart)
      as (st1 & Hrun & Hsf1 & Hs1 & Hw1 & Hf1 & Ho1 & _ & Hg1).
    rewrite forEach_cons.
    assert (Hstep : assignChild (VObj (done' ++ (k, sub') :: todo1')) (k, m) st
                    = (st1, Ok tt)).
    { unfold assignChild. simpl fst. rewrite lookupKey_app_fresh by done.
      exact Hrun. }
    rewrite Hstep.
    destruct (same_frame_forward _ _ _ _ Hsf1 HcR) as (cR1 & HcR1 & Hfr).
    injection Hfr as Ek _ Ech Eem _ _ _.
    pose proof Hsf1 as (_ & Hp1 & Hps1).
    assert (Hinv1 : forall j, j < R \/ hi <= j -> j ∉ up ->
                              latestValue st1 j = latestValue st j).
    { intros j Hj Hj'. unfold latestValue. rewrite Ho1; [done|lia|].
      intros Hin. apply elem_of_cons in Hin as [->|Hin]; [lia|done]. }
    destruct (IH Hall todo1' regtodo (done' ++ [(k, sub')])
                 (regdone ++ [(k, m)]) st1 h cR1)
      as (st' & Hloop & Hsf' & Hkids' & Hw' & Hf' & Hfresh1 & Ho' & Hpub'
          & Hg');
      try done.
    + by rewrite <- app_assoc.
    + congruence.
    + congruence.
    + by rewrite <- app_assoc, Ech.
    + by rewrite Hps1.
    + by apply (same_frame_gate_ok st).
    + congruence.
    + apply children_settled_snoc; [|done].
      apply (children_settled_others st); [done| |done].
      intros j Hj1 Hj2. apply Ho1; [lia | apply Hout; lia].
    + apply (children_settled_others st); [done| |done].
      intros j Hj1 Hj2. apply Ho1; [lia | apply Hout; lia].
    + by destruct Hw1 as (_ & _ & _ & _ & ?).
    + by destruct Hf1 as [_ ?].
    + by apply (apart_same_frame d st).
    + by destruct Hf1 as [? _].
    + exists st'. rewrite <- app_assoc in Hloop.
      rewrite <- (app_assoc done'), <- (app_assoc regdone) in Hkids'.
      simpl in Hloop, Hkids'.
      destruct Hg1 as [Hpub1 Hg1].
      assert (Hre : map (reseat st R m) (stages sub sub')
                    = map (fun w => VObj (done' ++ (k, w) :: todo))
                          (stages sub sub')).
      { apply map_ext. intros w.
        by apply (reseat_children st (R :: up) R cR done' regdone k sub todo
                    regtodo m hi). }
      rewrite Hre in Hpub1, Hg1.
      split; [done|]. split; [by etransitivity|].
      split; [done|]. split; [done|]. split; [done|]. split; [done|].
      split; [|split].
      * intros j Hj Hj'. rewrite Ho' by done. apply Ho1; [lia|].
        intros Hin. apply elem_of_cons in Hin as [->|Hin]; [lia | done].
      * simpl. rewrite Hpub', Hpub1. by rewrite <- app_assoc.
      * simpl. by apply (grown_app d st st1 st' R up _ _ R hi up).
Qed.

Lemma setNextState_assigned v : assigned v.
Proof.
  induction v as [| | | | |fs IH] using value_ind_nested.
  - intros v' st up id hi d Hs. simpl in Hs. tauto.
  - by apply leaf_assigned.
  - by apply leaf_assigned.
  - by apply leaf_assigned.
  - by apply leaf_assigned.
  - intros v' st up R hi d Hs Hshape Hgate Hpauser Hw Hf Hap.
    apply same_shape_obj in Hshape as (fs' & -> & Hshape).
    pose proof (settled_combined _ _ _ _ _ Hs) as Hcomb.
    pose proof (settled_latest _ _ _ _ _ Hs) as [_ Hlat].
    apply settled_obj in Hs
      as (Hup & cR & HcR & Hk & Hp & He & Hu & Hps & Hl & Hne & Hnd & Hkids).
    pose proof (same_shape_keys _ _ Hshape) as Hkeys.
    pose proof (children_settled_keys _ _ _ _ _ Hkids) as Hregkeys.
    destruct (assign_children R up hi d fs IH fs' (children cR) [] [] st
                (S R) cR)
      as (st' & Hloop & Hsf & Hkids' & Hw' & Hf' & Hfresh' & Ho' & Hpub & Hg);
      try done.
    + simpl. by rewrite Hkeys.
    + by apply Hpauser.
    + congruence.
    + simpl in Hloop, Hkids'.
      exists st'. rewrite setNextState_unfold, HcR, Hk, He. simpl objectKeys.
      cbv iota. rewrite Hkeys, Hregkeys, Nat.eqb_refl. simpl negb. cbv iota.
      rewrite stages_obj.
      split; [done|]. split; [done|]. split; [|done].
      destruct (same_frame_forward _ _ _ _ Hsf HcR) as (cR' & HcR' & Hfr).
      injection Hfr as Ek Ep Ech Eem Eup _ _.
      pose proof Hsf as (_ & _ & Hps').
      assert (Hne' : fs' <> []).
      { intros ->. inversion Hshape. by subst. }
      apply settled_obj. split; [done|]. exists cR'.
      rewrite <- Ech in Hkids'.
      pose proof (combined_of_children st' (R :: up) R cR' fs' (S R) hi
                    HcR' ltac:(congruence) ltac:(congruence) Hne' Hkids')
        as Hc'.
      rewrite Hc' in Hfresh'. unfold latestValue in Hfresh'.
      rewrite HcR' in Hfresh'.
      repeat split; congruence.
Qed.



(** X14: an assignment publishes the new state.  On a tree that holds a
    state [v], with the gate open when [v] is an object, [setNextState]
    with a state [v'] of the same shape succeeds; afterwards the node and
    every node below it holds its part of [v'], the branches with their
    last published value, and the cells outside the tree and outside the
    chain above it are as they were. *)
Theorem assignment_publishes_new_state st up v v' id hi :
  settled st up v id hi ->
  same_shape v v' ->
  gate_ok st ->
  (isPlainObject v = true -> pauser st = true) ->
  exists st',
    setNextState v' id st = (st', Ok tt) /\
    settled st' up v' id hi /\
    latestValue st' id = Some v' /\
    others_same id hi up st st'.
Proof.
  intros Hs Hshape Hgate Hpauser.
  destruct (setNextState_assigned v v' st up id hi 0 Hs Hshape Hgate Hpauser
              I I I)
    as (st' & Hrun & _ & Hs' & _ & _ & Ho & _).
  exists st'. split; [done|]. split; [done|]. split; [|done].
  by destruct (settled_latest _ _ _ _ _ Hs').
Qed.

Lemma assignment_publishes_new_state_witness :
  let v' := VObj [("a"%string, VObj [("x"%string, VNum 5)]);
                  ("b"%string, VNum 7)] in
  exists st',
    setNextState v' 0 Samples.nestedRoot = (st', Ok tt) /\
    settled st' [] v' 0 4 /\
    latestValue st' 0 = Some v' /\
    others_same 0 4 [] Samples.nestedRoot st'.
Proof.
  intros v'.
  apply (assignment_publishes_new_state Samples.nestedRoot []
           (VObj [("a"%string, VObj [("x"%string, VNum 1)]);
                  ("b"%string, VNum 2)]) v' 0 4).
  - vm_compute.
    repeat (first [ reflexivity | discriminate | constructor | eexists
                  | apply (bool_decide_unpack _); vm_compute; reflexivity ]).
  - simpl. tauto.
  - apply (createTree_gate_ok
             (VObj [("a"%string, VObj [("x"%string, VNum 1)]);
                    ("b"%string, VNum 2)]) false None [] empty_store).
    split.
    + intros id Hid. inversion Hid.
    + intros id c Hc. unfold getCell in Hc. simpl in Hc.
      by rewrite lookup_nil in Hc.
  - reflexivity.
Defined.



(** X18: what a branch publishes during an assignment.  On a branch that
    holds [v], with the gate open, [setNextState] with a state [v'] of the
    same shape walks the registry and assigns one leaf after the other;
    the branch publishes once for every leaf whose value changes, each
    time the state with the leaves assigned so far, and nothing else; every
    subscriber of the branch receives exactly these values, in this
    order. *)
Theorem assignment_publishes_every_stage st up fs v' id hi :
  settled st up (VObj fs) id hi ->
  same_shape (VObj fs) v' ->
  gate_ok st ->
  pauser st = true ->
  exists st',
    setNextState v' id st = (st', Ok tt) /\
    published st' id = published st id ++ stages (VObj fs) v' /\
    forall c o, getCell st id = Some c -> o < length (observers c) ->
                received st' id o = received st id o ++ stages (VObj fs) v'.
Proof.
  intros Hs Hshape Hgate Hpauser.
  destruct (setNextState_assigned (VObj fs) v' st up id hi 0 Hs Hshape Hgate
              (fun _ => Hpauser) I I I)
    as (st' & Hrun & _ & _ & _ & _ & _ & Hpub & _).
  specialize (Hpub eq_refl).
  exists st'. split; [done|]. split; [done|].
  intros c o Hc Ho.
  pose proof (setNextState_stepwise v' id st) as Hsteps.
  rewrite Hrun in Hsteps. simpl in Hsteps.
  destruct (steps_streams_extend id _ _ Hsteps c Hc)
    as (c' & news & Hc' & _ & Hsub & Hobs).
  apply settled_obj in Hs as (_ & c0 & Hc0 & Hk & _).
  rewrite Hc in Hc0. injection Hc0 as <-.
  unfold published in Hpub. rewrite Hc, Hc', Hsub in Hpub.
  apply app_inv_head in Hpub. subst news.
  destruct (lookup_lt_is_Some_2 (observers c) o Ho) as [seen Hseen].
  specialize (Hobs o seen Hseen). rewrite Hk in Hobs. simpl in Hobs.
  unfold received. by rewrite Hc, Hc', Hseen, Hobs.
Qed.

Lemma assignment_publishes_every_stage_witness :
  let st := fst (subscribe 0 Samples.nestedRoot) in
  let v' := VObj [("a"%string, VObj [("x"%string, VNum 5)]);
                  ("b"%string, VNum 7)] in
  let news := [VObj [("a"%string, VObj [("x"%string, VNum 5)]);
                     ("b"%string, VNum 2)]; v'] in
  exists st',
    setNextState v' 0 st = (st', Ok tt) /\
    published st' 0 = published st 0 ++ news /\
    forall c o, getCell st 0 = Some c -> o < length (observers c) ->
                received st' 0 o = received st 0 o ++ news.
Proof.
  intros st v' news.
  apply (assignment_publishes_every_stage st []
           [("a"%string, VObj [("x"%string, VNum 1)]); ("b"%string, VNum 2)]
           v' 0 4).
  - vm_compute.
    repeat (first [ reflexivity | discriminate | constructor | eexists
                  | apply (bool_decide_unpack _); vm_compute; reflexivity ]).
  - simpl. tauto.
  - apply subscribe_gate_ok.
    apply (createTree_gate_ok
             (VObj [("a"%string, VObj [("x"%string, VNum 1)]);
                    ("b"%string, VNum 2)]) false None [] empty_store).
    split.
    + intros id Hid. inversion Hid.
    + intros id c Hc. unfold getCell in Hc. simpl in Hc.
      by rewrite lookup_nil in Hc.
  - reflexivity.
Defined.

(** ** A declaration and the gate *)

#[local] Instance same_gate_preorder : PreOrder same_gate.
Proof.
  split.
  - by intros st.
  - intros s1 s2 s3 H12 H23. unfold same_gate in *. congruence.
Qed.

Lemma publish_same_gate id st : same_gate st (publish id st).
Proof. by destruct (publish_same_frame id st) as (_ & ? & _). Qed.

Lemma valueObservable_subscribe_same_gate self :
  respects same_gate (valueObservable_subscribe self).
Proof.
  apply (respects_modify same_gate). intros st. simpl.
  destruct (pauser st) eqn:Hp; [|by unfold same_gate].
  etransitivity; [|apply publish_same_gate]. by unfold same_gate.
Qed.

Lemma createNode_same_gate plumbing b :
  respects same_gate (createNode plumbing b).
Proof. by intros st. Qed.

Lemma childrenObservable_onNext_same_gate self reg :
  respects same_gate (childrenObservable_onNext self reg).
Proof.
  apply (respects_modify same_gate). intros st. simpl.
  destruct (getCell _ self) as [c|]; [|by unfold same_gate].
  destruct (connected c); [|by unfold same_gate].
  etransitivity; [|apply publish_same_gate]. by unfold same_gate.
Qed.

Lemma createInitialTree_same_gate populate b chain :
  (forall self, respects same_gate (populate self)) ->
  respects same_gate (createInitialTree populate b chain).
Proof.
  intros H. unfold createInitialTree.
  apply (respects_bind same_gate); [by intros st|]. intros self.
  apply (respects_bind same_gate).
  { destruct (negb b); [apply H | apply (respects_ret same_gate)]. }
  intros _. apply (respects_bind same_gate);
    [apply valueObservable_subscribe_same_gate|].
  intros _. apply createNode_same_gate.
Qed.

Lemma createLeaf_same_gate v pn chain :
  respects same_gate (createLeaf v pn chain).
Proof.
  intros st. unfold createLeaf.
  destruct (negb _); [reflexivity|]. by unfold same_gate.
Qed.

Lemma createTree_flat_same_gate v b pn chain :
  isPlainObject v = false -> respects same_gate (createTree v b pn chain).
Proof.
  intros Hv. destruct v; try done; simpl;
    try (destruct (negb b); [apply createLeaf_same_gate|]);
    apply createInitialTree_same_gate; intros self;
    apply (respects_ret same_gate).
Qed.

Lemma createChildrenObservable_flat_same_gate self child :
  isPlainObject (value_of child) = false ->
  respects same_gate (createChildrenObservable createTree self child).
Proof.
  intros Hv st. unfold createChildrenObservable.
  destruct (negb _ || _).
  - apply (respects_bind same_gate).
    + by apply createTree_flat_same_gate.
    + intros node. apply childrenObservable_onNext_same_gate.
  - destruct (negb _); [reflexivity|].
    apply childrenObservable_onNext_same_gate.
Qed.

Lemma pauser_onNext_false st : pauser (fst (pauser_onNext false st)) = false.
Proof.
  unfold pauser_onNext, modify. simpl.
  destruct (pauser st) eqn:Hp; simpl; [|done].
  by rewrite fold_left_pauser.
Qed.

Lemma updateAddChildrenSubject_gate fields onNext st st' r :
  updateAddChildrenSubject fields onNext st = (st', r) ->
  match r with
  | Ok _ => pauser st' = true
  | Throw _ =>
      (forall kv, kv ∈ fields ->
                  respects same_gate (onNext (Event (fst kv) (snd kv) false))) ->
      pauser st' = false
  end.
Proof.
  unfold updateAddChildrenSubject.
  rewrite (bind_ok _ _ st (fst (pauser_onNext false st)) tt) by reflexivity.
  set (sA := fst (pauser_onNext false st)).
  unfold bind.
  destruct (forEach _ fields sA) as [sB [[]|e]] eqn:Hloop.
  - intros [= <- <-]. apply pauser_onNext_true.
  - intros [= <- <-] Hflat.
    assert (H : respects same_gate
              (forEach (fun kv => onNext (Event (fst kv) (snd kv) false))
                       fields))
      by (by apply (respects_forEach same_gate)).
    specialize (H sA). rewrite Hloop in H. simpl in H.
    unfold same_gate in H. rewrite H. apply pauser_onNext_false.
Qed.

(** X16: a declaration and the gate.  A declaration of an object shape
    that succeeds leaves the gate open.  One that fails, for a shape whose
    values are no objects, leaves the gate closed: the tree-wide pauser
    stays at [false], and in a store whose connections follow the gate no
    pipeline is connected any more. *)
Theorem declaration_opens_or_closes_gate fields pn chain st st' r :
  createTree (VObj fields) false pn chain st = (st', r) ->
  match r with
  | Ok _ => pauser st' = true
  | Throw _ =>
      Forall (fun kv => isPlainObject (snd kv) = false) fields ->
      pauser st' = false /\ (gate_ok st -> all_disconnected st')
  end.
Proof.
  intros Hrun.
  assert (Hgate : gate_ok st -> gate_ok st').
  { intros Hg.
    pose proof (createTree_gate_ok (VObj fields) false pn chain st Hg) as H.
    by rewrite Hrun in H. }
  assert (Hflat : forall self,
    Forall (fun kv => isPlainObject (snd kv) = false) fields ->
    forall kv, kv ∈ fields ->
      respects same_gate
        (createChildrenObservable createTree self
           (Event (fst kv) (snd kv) false))).
  { intros self Hf kv Hkv. apply createChildrenObservable_flat_same_gate.
    rewrite Forall_forall in Hf. by apply Hf. }
  assert (Hdis : pauser st' = false -> gate_ok st -> all_disconnected st').
  { intros Hp Hg id c Hc. destruct (Hgate Hg) as [_ Hconn].
    by rewrite (Hconn id c Hc), Hp. }
  simpl in Hrun. destruct pn as [p|].
  - unfold createFinalTreeFromProvisionalNode in Hrun.
    destruct (updateAddChildrenSubject fields
                (createChildrenObservable createTree p) st)
      as [s1 [[]|e]] eqn:Hpop;
      pose proof (updateAddChildrenSubject_gate _ _ _ _ _ Hpop) as Hp;
      simpl in Hp.
    + rewrite (bind_ok _ _ _ _ _ Hpop) in Hrun.
      unfold createNode, bind, modify, ret in Hrun.
      injection Hrun as <- <-. done.
    + rewrite (bind_throw _ _ _ _ _ Hpop) in Hrun.
      injection Hrun as <- <-. intros Hf.
      specialize (Hp (Hflat p Hf)). split; [done | by apply Hdis].
  - unfold createInitialTree in Hrun.
    set (self := length (cells st)) in *.
    set (st0 := Store (cells st ++ [Cell KTree false [] false false [] [] chain])
                      (pauser st) (pausables st)) in *.
    rewrite (bind_ok (alloc (Cell KTree false [] false false [] [] chain)) _
               st st0 self eq_refl) in Hrun.
    simpl negb in Hrun. cbv iota in Hrun.
    destruct (updateAddChildrenSubject fields
                (createChildrenObservable createTree self) st0)
      as [s1 [[]|e]] eqn:Hpop;
      pose proof (updateAddChildrenSubject_gate _ _ _ _ _ Hpop) as Hp;
      simpl in Hp.
    + rewrite (bind_ok _ _ _ _ _ Hpop) in Hrun.
      rewrite (bind_ok _ _ s1 (fst (valueObservable_subscribe self s1)) tt
                 eq_refl) in Hrun.
      unfold createNode, bind, modify, ret in Hrun.
      injection Hrun as <- <-.
      pose proof (valueObservable_subscribe_same_gate self s1) as Hsub.
      unfold same_gate in Hsub.
      change (pauser (fst (valueObservable_subscribe self s1)) = true).
      congruence.
    + rewrite (bind_throw _ _ _ _ _ Hpop) in Hrun.
      injection Hrun as <- <-. intros Hf.
      specialize (Hp (Hflat self Hf)). split; [done | by apply Hdis].
Qed.

Lemma declaration_opens_or_closes_gate_witness :
  pauser Samples.pausedFlat = false /\
  (gate_ok Samples.flatRoot -> all_disconnected Samples.pausedFlat).
Proof.
  apply (declaration_opens_or_closes_gate
           [("a"%string, VNum 5)] (Some 0) [] Samples.flatRoot
           Samples.pausedFlat (Throw (FinalizedError "a"))).
  - reflexivity.
  - repeat constructor.
Defined.

(** ** Assigning the state a tree holds *)

Lemma settled_same_values st st' up v id hi :
  same_frame st st' ->
  (forall j, latestValue st' j = latestValue st j) ->
  settled st up v id hi -> settled st' up v id hi.
Proof.
  intros Hsf Hl. pose proof Hsf as (_ & _ & Hps).
  apply settled_transfer.
  - intros j. by rewrite Hps.
  - intros j c _ _ Hc.
    destruct (same_frame_forward _ _ _ _ Hsf Hc) as (c' & Hc' & Hfr).
    exists c'. split; [done|].
    injection Hfr as E1 E2 E3 E4 E5 _ _. split.
    + unfold skeleton. congruence.
    + specialize (Hl j). unfold latestValue in Hl. by rewrite Hc, Hc' in Hl.
Qed.

Lemma branches_untouched_trans s1 s2 s3 :
  branches_untouched s1 s2 -> branches_untouched s2 s3 ->
  branches_untouched s1 s3.
Proof. intros H12 H23 id c Hc Hk. apply H23; [by apply H12 | done]. Qed.

Lemma leaf_reassigned v :
  v <> VUndefined -> isPlainObject v = false -> reassigned v.
Proof.
  intros Hu Hobj st up id hi Hs.
  assert (Hleaf : exists c,
    getCell st id = Some c /\ c_kind c = KLeaf /\ last (subject c) = Some v).
  { destruct v; try done; simpl in Hs;
      destruct Hs as (_ & c & ? & ? & ? & ? & ? & ?); by exists c. }
  destruct Hleaf as (c & Hc & Hk & Hl).
  set (f := set_streams (subject c ++ [v])
                        (map (distinctUntilChanged v) (observers c))).
  exists (updCell f id st).
  rewrite setNextState_unfold, Hc, Hk.
  unfold leaf_setNextState, modify. rewrite Hc, Hl, value_eqb_refl. fold f.
  split; [done|]. split; [|split].
  - unfold same_frame, updCell. simpl. split; [|done].
    apply list_eq. intros i. rewrite !list_lookup_fmap.
    destruct (decide (id = i)) as [->|Hne].
    + rewrite list_lookup_alter_eq. unfold getCell in Hc. rewrite Hc.
      simpl. unfold frame. simpl. by rewrite length_map.
    + by rewrite list_lookup_alter_ne.
  - intros j cj Hj Hkj. rewrite updCell_getCell_ne; [done|].
    intros ->. congruence.
  - intros j. unfold latestValue.
    destruct (decide (id = j)) as [<-|Hne].
    + rewrite (updCell_getCell _ _ _ _ Hc), Hc. simpl. by rewrite last_snoc.
    + by rewrite updCell_getCell_ne.
Qed.

Lemma reassign_children up R hi todo :
  Forall (fun kv => reassigned (snd kv)) todo ->
  forall regtodo done st m,
    NoDup (map fst (done ++ todo)) ->
    children_settled (settled st (R :: up)) todo regtodo m hi ->
    exists st',
      forEach (assignChild (VObj (done ++ todo))) regtodo st = (st', Ok tt) /\
      same_frame st st' /\
      branches_untouched st st' /\
      (forall j, latestValue st' j = latestValue st j).
Proof.
  induction todo as [|[k sub] todo IH];
    intros Hall regtodo done st m Hnd Htodo.
  - destruct regtodo as [|[? ?] ?]; [|done].
    exists st. repeat split; try done. by intros id c Hc _.
  - destruct regtodo as [|[k' child] regtodo]; [done|].
    simpl in Htodo. destruct Htodo as (<- & -> & h & Hs & Htodo).
    apply Forall_cons in Hall as [Hsub Hall]. simpl in Hsub.
    assert (Hfree : k ∉ map fst done).
    { rewrite map_app in Hnd. simpl in Hnd.
      apply NoDup_app in Hnd as (_ & Hdis & _).
      intros Hin. apply (Hdis k Hin). by left. }
    destruct (Hsub st (R :: up) m h Hs) as (st1 & Hrun & Hsf1 & Hb1 & Hl1).
    rewrite forEach_cons.
    assert (Hstep : assignChild (VObj (done ++ (k, sub) :: todo)) (k, m) st
                    = (st1, Ok tt)).
    { unfold assignChild. simpl fst. rewrite lookupKey_app_fresh by done.
      exact Hrun. }
    rewrite Hstep.
    destruct (IH Hall regtodo (done ++ [(k, sub)]) st1 h)
      as (st' & Hloop & Hsf' & Hb' & Hl').
    + by rewrite <- app_assoc.
    + eapply children_settled_impl; [apply settled_ranges| |exact Htodo].
      apply Forall_forall. intros kv _ child h' _ _.
      by apply settled_same_values.
    + rewrite <- app_assoc in Hloop. simpl in Hloop.
      exists st'. split; [done|]. split; [by etransitivity|].
      split; [by apply (branches_untouched_trans st st1)|].
      intros j. by rewrite Hl', Hl1.
Qed.

Lemma setNextState_reassigned v : reassigned v.
Proof.
  induction v as [| | | | |fs IH] using value_ind_nested.
  - intros st up id hi Hs. simpl in Hs. tauto.
  - by apply leaf_reassigned.
  - by apply leaf_reassigned.
  - by apply leaf_reassigned.
  - by apply leaf_reassigned.
  - intros st up R hi Hs.
    apply settled_obj in Hs
      as (Hup & cR & HcR & Hk & Hp & He & Hu & Hps & Hl & Hne & Hnd & Hkids).
    pose proof (children_settled_keys _ _ _ _ _ Hkids) as Hregkeys.
    destruct (reassign_children up R hi fs IH (children cR) [] st (S R))
      as (st' & Hloop & Hsf & Hb & Hlat); [done | done |].
    simpl in Hloop. exists st'.
    rewrite setNextState_unfold, HcR, Hk, He. simpl objectKeys.
    cbv iota. rewrite Hregkeys, Nat.eqb_refl. simpl negb. cbv iota.
    done.
Qed.

(** X17: assigning the state a tree holds is silent.  On a tree that
    holds [v], [setNextState] with [v] itself succeeds, whether the gate
    is open or not; no branch of the store publishes, every branch is
    exactly as it was, its subscribers included, every node keeps its
    latest value, and nothing changes but the history of the leaves. *)
Theorem reassignment_is_silent st up v id hi :
  settled st up v id hi ->
  exists st',
    setNextState v id st = (st', Ok tt) /\
    branches_untouched st st' /\
    (forall j, latestValue st' j = latestValue st j) /\
    same_frame st st'.
Proof.
  intros Hs.
  destruct (setNextState_reassigned v st up id hi Hs)
    as (st' & Hrun & Hsf & Hb & Hl).
  by exists st'.
Qed.

Lemma reassignment_is_silent_witness :
  let v := VObj [("a"%string, VObj [("x"%string, VNum 1)]);
                 ("b"%string, VNum 2)] in
  exists st',
    setNextState v 0 Samples.nestedRoot = (st', Ok tt) /\
    branches_untouched Samples.nestedRoot st' /\
    (forall j, latestValue st' j = latestValue Samples.nestedRoot j) /\
    same_frame Samples.nestedRoot st'.
Proof.
  intros v.
  apply (reassignment_is_silent Samples.nestedRoot [] v 0 4).
  vm_compute.
  repeat (first [ reflexivity | discriminate | constructor | eexists
                | apply (bool_decide_unpack _); vm_compute; reflexivity ]).
Defined.

(** ** A child added to a tree *)



